(** * scaletest/trafficgen: the traffic-generation runner

    A shallow embedding of [scaletest/trafficgen/run.go]: the byte-counting
    wrapper [countReadWriter], the paced writer ([writeRandomData],
    [copyContext], [mustRandStr]), the drain reader ([drainContext]) and the
    session runner ([Run]).

    Everything outside the file is an environment that answers the program's
    calls: the cancellation scope (deadline timer or caller cancel), the
    session stream, the random source, the ticker and the Go scheduler.  The
    environment is given as data (scripts and schedules), so every definition
    below is a total function that can be evaluated on a concrete
    environment, and a statement about "every execution" quantifies over all
    scripts and schedules.

    Integers are 64-bit ([int] on the platforms the CLI is built for, and
    [int64]); wrap-around is written out with [int64_wrap]. *)

From Stdlib Require Import ZArith List String Ascii Bool Lia.
Import ListNotations.
Open Scope Z_scope.

(** ** Errors *)

(** Go [error] values that the runner can meet.  A nil error is [None] of
    [option error].  [xerrors_Errorf msg e] is [xerrors.Errorf(msg + ": %w", e)]. *)
Inductive error : Type :=
| io_EOF
| context_DeadlineExceeded
| context_Canceled
| errors_New (msg : string)
| xerrors_Errorf (msg : string) (wrapped : error).

Definition error_eq_dec (a b : error) : {a = b} + {a <> b}.
Proof. decide equality; apply string_dec. Defined.

Definition error_eqb (a b : error) : bool :=
  if error_eq_dec a b then true else false.

(** [xerrors.Is]: walks the chain of wrapped errors looking for [target]. *)
Fixpoint xerrors_Is (err target : error) : bool :=
  error_eqb err target ||
  match err with
  | xerrors_Errorf _ wrapped => xerrors_Is wrapped target
  | _ => false
  end.

(** What a call can do: return, panic, or never come back (a blocked channel
    operation or stream call that the environment never answers). *)
Inductive outcome (A : Type) : Type :=
| Returned (a : A)
| Panicked (e : error)
| Blocked.
Arguments Returned {A} a.
Arguments Panicked {A} e.
Arguments Blocked {A}.

(** ** The cancellation scope *)

(** Why a [context.Context] is done: its deadline passed, or the caller
    cancelled it. *)
Inductive reason : Type := Deadline | CallerCancel.

(** The state of a context: [None] while it is live. *)
Definition context : Type := option reason.

(** [ctx.Err()] *)
Definition ctx_Err (c : context) : option error :=
  match c with
  | None => None
  | Some Deadline => Some context_DeadlineExceeded
  | Some CallerCancel => Some context_Canceled
  end.

(** [<-ctx.Done()] can proceed exactly when the context is done. *)
Definition ctx_Done (c : context) : bool :=
  match c with None => false | Some _ => true end.

(** The timer or the caller cancels the context; the first reason stays. *)
Definition ctx_cancel (r : reason) (c : context) : context :=
  match c with None => Some r | Some _ => c end.

(** ** 64-bit integers *)

Definition int64_wrap (z : Z) : Z := (z + 2 ^ 63) mod 2 ^ 64 - 2 ^ 63.

(** ** countReadWriter *)

Module Meter.

(** [countReadWriter]: the scope it is bound to and the two atomic counters.
    The embedded [io.ReadWriter] is the environment: each call that reaches
    it is answered with the pair [(n, err)] it returns. *)
Record countReadWriter : Type := mkCRW {
  ctx : context;
  bytesRead : Z;
  bytesWritten : Z
}.

(** [countReadWriter{ReadWriter: conn, ctx: deadlineCtx}] *)
Definition new (c : context) : countReadWriter := mkCRW c 0 0.

Definition with_ctx (c : context) (w : countReadWriter) : countReadWriter :=
  mkCRW c (bytesRead w) (bytesWritten w).

(** [atomic.Int64.Add] on each counter. *)
Definition addRead (n : Z) (w : countReadWriter) : countReadWriter :=
  mkCRW (ctx w) (int64_wrap (bytesRead w + n)) (bytesWritten w).

Definition addWritten (n : Z) (w : countReadWriter) : countReadWriter :=
  mkCRW (ctx w) (bytesRead w) (int64_wrap (bytesWritten w + n)).

(** [func (w *countReadWriter) Read(p []byte) (int, error)]; [under] is the
    answer of [w.ReadWriter.Read(p)], consulted only when the scope is live. *)
Definition Read (under : Z * option error) (w : countReadWriter)
  : (Z * option error) * countReadWriter :=
  match ctx_Err (ctx w) with
  | Some err => ((0, Some err), w)
  | None =>
      let '(n, err) := under in
      match err with
      | None => ((n, None), addRead n w)
      | Some _ => ((n, err), w)
      end
  end.

(** [func (w *countReadWriter) Write(p []byte) (int, error)] *)
Definition Write (under : Z * option error) (w : countReadWriter)
  : (Z * option error) * countReadWriter :=
  match ctx_Err (ctx w) with
  | Some err => ((0, Some err), w)
  | None =>
      let '(n, err) := under in
      match err with
      | None => ((n, None), addWritten n w)
      | Some _ => ((n, err), w)
      end
  end.

Definition BytesRead (w : countReadWriter) : Z := bytesRead w.
Definition BytesWritten (w : countReadWriter) : Z := bytesWritten w.

(** *** Histories of calls

    The reader task is the only caller of [Read] and the writer task the only
    caller of [Write]; each counter update is one atomic step.  A history is
    any interleaving of the two tasks' calls and of the scope being
    cancelled, in the order in which the calls return. *)
Inductive op : Type :=
| OpCancel (r : reason)
| OpRead (n : Z) (err : option error)
| OpWrite (n : Z) (err : option error).

Inductive dir : Type := Rd | Wr.

Definition dir_eqb (a b : dir) : bool :=
  match a, b with Rd, Rd | Wr, Wr => true | _, _ => false end.

(** One call of the history: the new meter and, for a [Read] or [Write], what
    the call returned to its caller. *)
Definition run_op (o : op) (w : countReadWriter)
  : option (dir * (Z * option error)) * countReadWriter :=
  match o with
  | OpCancel r => (None, with_ctx (ctx_cancel r (ctx w)) w)
  | OpRead n err => let '(res, w') := Read (n, err) w in (Some (Rd, res), w')
  | OpWrite n err => let '(res, w') := Write (n, err) w in (Some (Wr, res), w')
  end.

Fixpoint run (h : list op) (w : countReadWriter) : countReadWriter :=
  match h with
  | [] => w
  | o :: h' => run h' (snd (run_op o w))
  end.

(** The sum of the byte counts of the calls in direction [d] that returned
    with a nil error. *)
Fixpoint returned_ok (d : dir) (h : list op) (w : countReadWriter) : Z :=
  match h with
  | [] => 0
  | o :: h' =>
      let '(res, w') := run_op o w in
      match res with
      | Some (d', (n, None)) =>
          if dir_eqb d d' then n + returned_ok d h' w' else returned_ok d h' w'
      | _ => returned_ok d h' w'
      end
  end.

(** The [io.Reader] and [io.Writer] contract: a call never returns a negative
    count. *)
Definition io_contract (h : list op) : bool :=
  forallb (fun o => match o with
                    | OpCancel _ => true
                    | OpRead n _ | OpWrite n _ => 0 <=? n
                    end) h.

(** The calls of one direction of a history, with the cancellations. *)
Definition only (d : dir) (h : list op) : list op :=
  filter (fun o =>
            match o, d with
            | OpCancel _, _ => true
            | OpRead _ _, Rd => true
            | OpWrite _ _, Wr => true
            | _, _ => false
            end) h.

End Meter.

(** ** The paced writer *)

Module Writer.
Import Meter.

(** Modelled from the spec: [codersdk.ReconnectingPTYRequest], declared
    outside this package; the wire payload is "a structured object with one
    field, data". *)
Record ReconnectingPTYRequest : Type := mkRequest { Data : string }.

(** What the environment does while one payload is being copied: the scope
    is cancelled, or the stream answers the next one-byte [Write] with
    [(n, err)]. *)
Inductive wr_ev : Type :=
| WrCancel (r : reason)
| WrAnswer (n : Z) (err : option error).

(** What the environment does at the [select] of [writeRandomData]: the
    scope is cancelled while the writer waits; the [select] takes
    [<-ctx.Done()]; or it takes [<-tick], and then [rnd] is how
    [cryptorand.String] answers on this tick and [ws] what happens during the
    copy.  When both channels are ready Go picks either, so a script may take
    a tick although the scope is done. *)
Inductive sel_ev : Type :=
| SelCancel (r : reason)
| SelDone
| SelTick (rnd : Z -> string + error) (ws : list wr_ev).

(** The writer's state: the meter it writes through, the pending answers of
    the stream, and the serialized payloads handed to the byte loop so far
    (oldest first). *)
Record wstate : Type := mkW {
  crw : countReadWriter;
  answers : list wr_ev;
  emitted : list (list Byte.byte)
}.

Definition start (w : countReadWriter) : wstate := mkW w [] [].

(** A small state monad over [wstate] whose computations may also panic or
    block. *)
Definition M (A : Type) : Type := wstate -> outcome A * wstate.

Definition ret {A} (a : A) : M A := fun s => (Returned a, s).

Definition bind {A B} (c : M A) (k : A -> M B) : M B :=
  fun s =>
    match c s with
    | (Returned a, s') => k a s'
    | (Panicked e, s') => (Panicked e, s')
    | (Blocked, s') => (Blocked, s')
    end.

Notation "x <- c ;; k" := (bind c (fun x => k))
  (at level 61, c at next level, right associativity).
Notation "c ;;; k" := (bind c (fun _ => k))
  (at level 61, right associativity).

Definition block {A} : M A := fun s => (Blocked, s).
Definition panic {A} (e : error) : M A := fun s => (Panicked e, s).

Definition cancel (r : reason) : M unit :=
  fun s => (Returned tt,
            mkW (with_ctx (ctx_cancel r (ctx (crw s))) (crw s))
                (answers s) (emitted s)).

Definition ctx_done : M bool := fun s => (Returned (ctx_Done (ctx (crw s))), s).

Definition set_answers (ws : list wr_ev) : M unit :=
  fun s => (Returned tt, mkW (crw s) ws (emitted s)).

Definition emit (data : list Byte.byte) : M unit :=
  fun s => (Returned tt, mkW (crw s) (answers s) (emitted s ++ [data])).

(** [dst.Write(src[idx : idx+1])] with [dst = &crw]: cancellations that
    precede the call take effect, then the meter's [Write] runs on the
    stream's next answer.  With no answer left, a live scope means the
    stream call never returns; a done scope makes [Write] fail fast without
    touching the stream. *)
Fixpoint dst_Write_from (ws : list wr_ev) (w : countReadWriter)
  (em : list (list Byte.byte)) : outcome (Z * option error) * wstate :=
  match ws with
  | WrCancel r :: ws' => dst_Write_from ws' (with_ctx (ctx_cancel r (ctx w)) w) em
  | WrAnswer n err :: ws' =>
      let '(res, w') := Write (n, err) w in (Returned res, mkW w' ws' em)
  | [] =>
      match ctx_Err (ctx w) with
      | Some e => (Returned (0, Some e), mkW w [] em)
      | None => (Blocked, mkW w [] em)
      end
  end.

Definition dst_Write : M (Z * option error) :=
  fun s => dst_Write_from (answers s) (crw s) (emitted s).

(** The [for idx := range src] loop of [copyContext]. *)
Fixpoint copy_loop (src : list Byte.byte) (count : Z) : M (Z * option error) :=
  match src with
  | [] => ret (count, None)
  | _ :: src' =>
      res <- dst_Write ;;
      match snd res with
      | Some err =>
          if xerrors_Is err io_EOF then ret (count, None)
          else if xerrors_Is err context_DeadlineExceeded then
            (* It's OK if we reach the deadline before writing the full payload. *)
            ret (count, None)
          else ret (count, Some err)
      | None => copy_loop src' (int64_wrap (count + fst res))
      end
  end.

(** [copyContext]: the [select] with a [default] branch runs once. *)
Definition copyContext (src : list Byte.byte) : M (Z * option error) :=
  done <- ctx_done ;;
  if done then ret (0, None)
  else emit src ;;; copy_loop src 0.

(** [mustRandStr]; [rnd] is [cryptorand.String], which lives outside this
    package. *)
Definition mustRandStr (rnd : Z -> string + error) (len : Z) : M string :=
  match rnd len with
  | inl randStr => ret randStr
  | inr err => panic err
  end.

Section WithMarshal.

(** [json.Marshal] on a request. *)
Variable json_Marshal : ReconnectingPTYRequest -> list Byte.byte + error.

(** [writeRandomData]: one iteration of the [for { select }] per script
    entry.  With the script used up the writer waits in the [select]. *)
Fixpoint writeRandomData (size : Z) (tick : list sel_ev) : M (option error) :=
  match tick with
  | [] => block
  | SelCancel r :: tick' => cancel r ;;; writeRandomData size tick'
  | SelDone :: _ =>
      done <- ctx_done ;;
      if done then ret None else block
  | SelTick rnd ws :: tick' =>
      (* size-1 is computed in int64 *)
      randStr <- mustRandStr rnd (int64_wrap (size - 1)) ;;
      let payload := String "#" randStr in
      match json_Marshal (mkRequest payload) with
      | inr err => ret (Some err)
      | inl data =>
          set_answers ws ;;;
          res <- copyContext data ;;
          match snd res with
          | Some err => ret (Some err)
          | None => writeRandomData size tick'
          end
      end
  end.

End WithMarshal.

(** The double quote character. *)
Definition dquote : ascii := "034"%char.

(** What [json.Marshal] produces for the one-field envelope when no
    character of the payload needs escaping (the marker and letters or
    digits): the object with the single member [data], eleven bytes around
    the payload.  Used where a concrete serializer is needed. *)
Definition plain_Marshal (req : ReconnectingPTYRequest)
  : list Byte.byte + error :=
  inl (list_byte_of_string
         ("{" ++ String dquote ("data" ++ String dquote (":" ++
          String dquote (Data req ++ String dquote "}")))))%string.

(** *** Properties of scripts *)

(** Modelled from the spec: [cryptorand.String], which lives outside this
    package, is the capability to "produce N cryptographically-random
    printable bytes": when it succeeds on a request for [n >= 0] bytes, the
    string it returns has [n] bytes. *)
Definition produces_requested_length (rnd : Z -> string + error) : Prop :=
  forall n randStr,
    0 <= n -> rnd n = inl randStr -> Z.of_nat (String.length randStr) = n.

(** The random source keeps to that on every tick of a script. *)
Definition generator_ok (tick : list sel_ev) : Prop :=
  Forall (fun ev =>
            match ev with
            | SelTick rnd _ => produces_requested_length rnd
            | _ => True
            end) tick.

(** The stream takes every byte offered to it, and the scope ends by its
    deadline only. *)
Definition wr_paced (e : wr_ev) : bool :=
  match e with
  | WrCancel Deadline => true
  | WrCancel CallerCancel => false
  | WrAnswer n None => n =? 1
  | WrAnswer _ (Some _) => false
  end.

Definition paced (tick : list sel_ev) : bool :=
  forallb (fun ev =>
             match ev with
             | SelCancel Deadline => true
             | SelCancel CallerCancel => false
             | SelDone => true
             | SelTick _ ws => forallb wr_paced ws
             end) tick.

(** The scope ends by its deadline only, and the stream never fails on its
    own: a write is accepted (with any count) or not answered at all. *)
Definition wr_deadline_only (e : wr_ev) : bool :=
  match e with
  | WrCancel Deadline => true
  | WrCancel CallerCancel => false
  | WrAnswer _ None => true
  | WrAnswer _ (Some _) => false
  end.

Definition deadline_only (tick : list sel_ev) : bool :=
  forallb (fun ev =>
             match ev with
             | SelCancel Deadline => true
             | SelCancel CallerCancel => false
             | SelDone => true
             | SelTick _ ws => forallb wr_deadline_only ws
             end) tick.

(** The ticks the writer serves in a script. *)
Definition ticks (tick : list sel_ev) : Z :=
  Z.of_nat (List.length
              (filter (fun ev => match ev with SelTick _ _ => true | _ => false end)
                 tick)).

(** The number of bytes of a list of serialized payloads. *)
Fixpoint total_length (l : list (list Byte.byte)) : Z :=
  match l with
  | [] => 0
  | data :: l' => Z.of_nat (List.length data) + total_length l'
  end.

(** The number of bytes of the payload emitted last. *)
Definition last_length (l : list (list Byte.byte)) : Z :=
  Z.of_nat (List.length (last l [])).

(** What holds between ticks when the stream takes every byte and only the
    deadline ends the scope: every payload emitted so far went out in full,
    except that the deadline may have cut the last one short. *)
Definition paced_inv (s : wstate) : Prop :=
  ctx (crw s) <> Some CallerCancel /\
  0 <= bytesWritten (crw s) /\
  total_length (emitted s) - last_length (emitted s) <= bytesWritten (crw s) /\
  bytesWritten (crw s) <= total_length (emitted s) /\
  (ctx (crw s) = None -> bytesWritten (crw s) = total_length (emitted s)).

Definition paced_bounds (s : wstate) : Prop :=
  total_length (emitted s) - last_length (emitted s) <= bytesWritten (crw s) /\
  bytesWritten (crw s) <= total_length (emitted s).

(** The stream takes [n] bytes, one per call. *)
Definition accepted (n : nat) : list wr_ev := repeat (WrAnswer 1 None) n.

(** The stream takes the [L] bytes of a payload, one per call, before
    anything else happens. *)
Fixpoint written_in_full (L : nat) (ws : list wr_ev) : bool :=
  match L, ws with
  | O, _ => true
  | S L', WrAnswer n None :: ws' => (n =? 1) && written_in_full L' ws'
  | S _, _ => false
  end.

(** The deadline passes before the stream has taken the [L] bytes of a
    payload. *)
Fixpoint cut_short (L : nat) (ws : list wr_ev) : bool :=
  match L, ws with
  | S _, WrCancel Deadline :: _ => true
  | S L', WrAnswer n None :: ws' => (n =? 1) && cut_short L' ws'
  | _, _ => false
  end.

(** A run on the clock.  The ticker of period [T] fires at [T], [2T],
    [3T], ... and the deadline passes at [D], both counted from the start
    of the run.  The writer keeps pace with the ticker: the [k]-th tick it
    takes is the [k]-th tick fired, none is dropped for a writer that is
    late, and the stream takes every byte of the [L]-byte payloads at once.
    The deadline passes while the writer waits in its [select], when the
    next tick has not fired before it, or during a payload, before the
    next tick fires.  From there on the script is free.  [k] is the number
    of the next tick. *)
Fixpoint on_the_clock (T D : Z) (L : nat) (k : Z) (tick : list sel_ev)
  : bool :=
  match tick with
  | [] => false
  | SelTick _ ws :: tick' =>
      (k * T <=? D) &&
      (if written_in_full L ws then on_the_clock T D L (k + 1) tick'
       else cut_short L ws && (D <? (k + 1) * T))
  | SelCancel Deadline :: _ => D <=? k * T
  | SelCancel CallerCancel :: _ => false
  | SelDone :: _ => false
  end.

Section Shapes.

Variable json_Marshal : ReconnectingPTYRequest -> list Byte.byte + error.

(** On a tick the random source and the serializer do not fail. *)
Definition serves (size : Z) (ev : sel_ev) : Prop :=
  match ev with
  | SelTick rnd _ =>
      exists randStr data,
        rnd (int64_wrap (size - 1)) = inl randStr /\
        json_Marshal (mkRequest (String "#" randStr)) = inl data
  | _ => True
  end.

(** They do not fail, and the serialized payload is [L] bytes long. *)
Definition serves_sized (size : Z) (L : nat) (ev : sel_ev) : Prop :=
  match ev with
  | SelTick rnd _ =>
      exists randStr data,
        rnd (int64_wrap (size - 1)) = inl randStr /\
        json_Marshal (mkRequest (String "#" randStr)) = inl data /\
        List.length data = L
  | _ => True
  end.

(** A serialized payload is the encoding of a request whose data begins
    with the marker and is [size] bytes long. *)
Definition payload_ok (size : Z) (data : list Byte.byte) : Prop :=
  exists req,
    json_Marshal req = inl data /\
    (exists rest, Data req = String "#" rest) /\
    Z.of_nat (String.length (Data req)) = size.

(** The writer reports no error, unless serializing a payload failed. *)
Definition marshal_error_only (out : outcome (option error)) : Prop :=
  forall err, out = Returned (Some err) -> exists req, json_Marshal req = inr err.

End Shapes.

End Writer.

(** ** The drain reader *)

Module Drain.
Import Meter.

(** What happens while [drainContext] runs, in order: the scope is
    cancelled; the reading goroutine performs one [Read] of [io.CopyN(buf,
    src, 1)] on the meter, to which the stream (if reached) answers with one
    byte or none and [err] (the buffer passed down has length 1, and
    [io.Reader] promises [0 <= n <= len(p)]); the coordinating [select] takes
    [<-ctx.Done()]; or it takes [err := <-errCh]. *)
Inductive dr_ev : Type :=
| DrCancel (r : reason)
| DrRead (byte : bool) (err : option error)
| DrOuterDone
| DrOuterRecv.

(** The reading goroutine: in its loop, or parked on [errCh <- err]. *)
Inductive inner : Type :=
| Reading
| Sending (err : error).

(** One [Read] inside [io.CopyN(buf, src, 1)], given what the meter
    returned: a byte completes the copy with a nil error (an error that comes
    with the byte is dropped by [CopyN], since [written == n]); no byte and no
    error makes [bytes.Buffer.ReadFrom] read again; no byte and an error ends
    the copy with that error ([io.EOF] included). *)
Definition CopyN_after (res : Z * option error) : inner :=
  if 1 <=? fst res then Reading
  else match snd res with
       | None => Reading
       | Some err => Sending err
       end.

(** [tmp := make([]byte, bufSize)], the first thing the reading goroutine
    does: the runtime panics when the length is negative or above
    [maxAlloc], the largest size it can serve in this run (at most
    [runtime.maxAlloc], which is 2^48 bytes on linux/amd64). *)
Definition make_fails (maxAlloc bufSize : Z) : bool :=
  (bufSize <? 0) || (maxAlloc <? bufSize).

(** The reading goroutine is run by its [Read]s: the first [DrRead] of a
    script is also where it allocates its buffer. *)
Fixpoint drain_loop (maxAlloc bufSize : Z) (evs : list dr_ev) (inn : inner)
  (w : countReadWriter) : outcome (option error) * countReadWriter :=
  match evs with
  | [] => (Blocked, w)
  | DrCancel r :: evs' =>
      drain_loop maxAlloc bufSize evs' inn (with_ctx (ctx_cancel r (ctx w)) w)
  | DrRead byte err :: evs' =>
      if make_fails maxAlloc bufSize then
        (* tmp := make([]byte, bufSize) *)
        (Panicked (errors_New "makeslice: len out of range"), w)
      else
        match inn with
        | Reading =>
            let '(res, w') := Read (if byte then 1 else 0, err) w in
            drain_loop maxAlloc bufSize evs' (CopyN_after res) w'
        | Sending _ => drain_loop maxAlloc bufSize evs' inn w
        end
  | DrOuterDone :: _ =>
      if ctx_Done (ctx w) then (Returned None, w) else (Blocked, w)
  | DrOuterRecv :: _ =>
      match inn with
      | Sending err =>
          if xerrors_Is err io_EOF then (Returned None, w)
          else (Returned (Some err), w)
      | Reading => (Blocked, w)
      end
  end.

(** [drainContext]: the coordinating loop returns at its first [select]
    that can proceed, since [errCh] only ever carries non-nil errors. *)
Definition drainContext (maxAlloc bufSize : Z) (evs : list dr_ev)
  (w : countReadWriter) : outcome (option error) * countReadWriter :=
  drain_loop maxAlloc bufSize evs Reading w.

(** *** The goroutine left behind

    When [drainContext] returns through [<-ctx.Done()] it closes [done] and
    does not wait for the reading goroutine.  That goroutine, if it has not
    run yet, still allocates its buffer (and panics if it cannot) and then
    finds [done] closed.  If it is inside a [Read] that passed the scope
    check before the scope ended, that [Read] still completes, and a byte
    that comes with a nil error is added to [bytesRead] after
    [drainContext] has returned.  A [Read] started later fails fast on the
    meter.  When [drainContext] returns through [errCh], the goroutine has
    handed over its error and is gone. *)
Inductive late : Type :=
| LateNothing
| LatePanic (e : error)
| LateByte.

(** How the stream answers the next [Read] in what is left of a script. *)
Fixpoint next_read (evs : list dr_ev) : option (bool * option error) :=
  match evs with
  | [] => None
  | DrRead byte err :: _ => Some (byte, err)
  | _ :: evs' => next_read evs'
  end.

(** What is left to the goroutine at the point where [drain_loop] returns;
    [fresh] tells whether the scope was live when [drainContext] was
    called, so that a [Read] can have passed the check. *)
Fixpoint late_loop (maxAlloc bufSize : Z) (fresh : bool) (evs : list dr_ev)
  (inn : inner) (w : countReadWriter) : late :=
  match evs with
  | [] => LateNothing
  | DrCancel r :: evs' =>
      late_loop maxAlloc bufSize fresh evs' inn
        (with_ctx (ctx_cancel r (ctx w)) w)
  | DrRead byte err :: evs' =>
      if make_fails maxAlloc bufSize then LateNothing
      else
        match inn with
        | Reading =>
            let '(res, w') := Read (if byte then 1 else 0, err) w in
            late_loop maxAlloc bufSize fresh evs' (CopyN_after res) w'
        | Sending _ => late_loop maxAlloc bufSize fresh evs' inn w
        end
  | DrOuterDone :: evs' =>
      if ctx_Done (ctx w) then
        if make_fails maxAlloc bufSize then
          LatePanic (errors_New "makeslice: len out of range")
        else
          match inn with
          | Sending _ => LateNothing   (* parked on [errCh <- err] for ever *)
          | Reading =>
              if fresh then
                match next_read evs' with
                | Some (true, None) => LateByte
                | _ => LateNothing
                end
              else LateNothing
          end
      else LateNothing
  | DrOuterRecv :: _ => LateNothing
  end.

Definition drain_late (maxAlloc bufSize : Z) (evs : list dr_ev)
  (w : countReadWriter) : late :=
  late_loop maxAlloc bufSize (negb (ctx_Done (ctx w))) evs Reading w.

(** *** Properties of scripts *)

(** The errors with which the stream fails a [Read] that delivers no byte. *)
Fixpoint read_errors (evs : list dr_ev) : list error :=
  match evs with
  | [] => []
  | DrRead false (Some err) :: evs' => err :: read_errors evs'
  | _ :: evs' => read_errors evs'
  end.

(** The reasons for which the scope is cancelled during a script. *)
Fixpoint cancellations (evs : list dr_ev) : list reason :=
  match evs with
  | [] => []
  | DrCancel r :: evs' => r :: cancellations evs'
  | _ :: evs' => cancellations evs'
  end.




End Drain.

(** ** The session runner *)

Module Runner.
Import Meter.

(** Modelled from the spec: [Config], declared in a file of this package
    that is not part of the sources at hand; [Run] divides
    [BytesPerSecond] by [TicksPerSecond] and passes the quotient on as
    [int64]. *)
Record Config : Type := mkConfig {
  BytesPerSecond : Z;
  TicksPerSecond : Z;
  Duration : Z
}.

(** The environment of one run: whether opening the session fails, what the
    writer meets, what the reader meets, and the largest buffer the runtime
    can allocate. *)
Record Env : Type := mkEnv {
  open_err : option error;
  writer_script : list Writer.sel_ev;
  reader_script : list Drain.dr_ev;
  maxAlloc : Z
}.

Inductive closer : Type := ByDefer | ByReader.

(** The observable steps of a run. *)
Inductive event : Type :=
| EvOpen                              (* r.client.WorkspaceAgentReconnectingPTY *)
| EvWriterDone (err : option error)   (* writeRandomData returned *)
| EvReaderDone (err : option error)   (* drainContext returned *)
| EvRecvW                             (* wErr := <-wch *)
| EvRecvR                             (* rErr := <-rch *)
| EvBytesWritten (n : Z)              (* crw.BytesWritten() for the results *)
| EvBytesRead (n : Z)                 (* crw.BytesRead() for the results *)
| EvClose (by_ : closer)              (* conn.Close() *)
| EvReturn (err : option error).

(** The goroutines that matter: [Run] itself, the two tasks, and the
    reading goroutine of [drainContext] once [drainContext] has left it
    behind. *)
Inductive tid : Type := Main | WriterTask | ReaderTask | DrainGoroutine.

Inductive main_pc : Type :=
| MRecvW                          (* at [wErr := <-wch] *)
| MRecvR                          (* at [rErr := <-rch] *)
| MBytesWritten                   (* about to load the sent counter *)
| MBytesRead                      (* about to load the rcvd counter *)
| MDefer (res : option error)     (* returning: the deferred close is next *)
| MReturned (res : option error).

Inductive task_pc : Type :=
| TRun                            (* inside writeRandomData / drainContext *)
| TStuck                          (* inside it for ever *)
| TSend (err : option error)      (* parked on [wch <- err] / [rch <- err] *)
| TAfter                          (* the send went through *)
| TDone.

Record state : Type := mkState {
  mpc : main_pc;
  wpc : task_pc;
  rpc : task_pc;
  meter : countReadWriter;
  crashed : option error;
  trace : list event
}.

Definition log (e : event) (s : state) : state :=
  mkState (mpc s) (wpc s) (rpc s) (meter s) (crashed s) (trace s ++ [e]).

(** What a task does when it is run to its end: how its function comes
    back, and the meter as the task leaves it.  The writer only ever adds to
    [bytesWritten] and the reader to [bytesRead]. *)
Definition task_result : Type := (outcome (option error) * countReadWriter)%type.

(** A step of [Run] after the tasks were started. *)
Definition step_main (s : state) : state :=
  match mpc s with
  | MRecvW =>
      match wpc s with
      | TSend wErr =>
          let next := match wErr with
                      | Some e => MDefer (Some (xerrors_Errorf "write to pty" e))
                      | None => MRecvR
                      end in
          log EvRecvW (mkState next TAfter (rpc s) (meter s) (crashed s) (trace s))
      | _ => s
      end
  | MRecvR =>
      match rpc s with
      | TSend rErr =>
          let next := match rErr with
                      | Some e => MDefer (Some (xerrors_Errorf "read from pty" e))
                      | None => MBytesWritten
                      end in
          log EvRecvR (mkState next (wpc s) TAfter (meter s) (crashed s) (trace s))
      | _ => s
      end
  | MBytesWritten =>
      log (EvBytesWritten (BytesWritten (meter s)))
          (mkState MBytesRead (wpc s) (rpc s) (meter s) (crashed s) (trace s))
  | MBytesRead =>
      log (EvBytesRead (BytesRead (meter s)))
          (mkState (MDefer None) (wpc s) (rpc s) (meter s) (crashed s) (trace s))
  | MDefer res =>
      log (EvReturn res)
        (log (EvClose ByDefer)
           (mkState (MReturned res) (wpc s) (rpc s) (meter s) (crashed s) (trace s)))
  | MReturned _ => s
  end.

(** A step of the goroutine that runs [writeRandomData] and sends its
    result on [wch]; [W] is what [writeRandomData] does in this run. *)
Definition step_writer (W : task_result) (s : state) : state :=
  match wpc s with
  | TRun =>
      match fst W with
      | Returned wErr =>
          log (EvWriterDone wErr)
            (mkState (mpc s) (TSend wErr) (rpc s)
               (mkCRW (ctx (meter s)) (bytesRead (meter s))
                      (bytesWritten (snd W)))
               (crashed s) (trace s))
      | Panicked e =>
          mkState (mpc s) TStuck (rpc s) (meter s) (Some e) (trace s)
      | Blocked =>
          mkState (mpc s) TStuck (rpc s) (meter s) (crashed s) (trace s)
      end
  | TAfter =>
      (* close(wch) *)
      mkState (mpc s) TDone (rpc s) (meter s) (crashed s) (trace s)
  | _ => s
  end.

(** A step of the goroutine that runs [drainContext], sends its result on
    [rch] and then closes the connection; [R] is what [drainContext] does in
    this run. *)
Definition step_reader (R : task_result) (s : state) : state :=
  match rpc s with
  | TRun =>
      match fst R with
      | Returned rErr =>
          log (EvReaderDone rErr)
            (mkState (mpc s) (wpc s) (TSend rErr)
               (mkCRW (ctx (meter s)) (bytesRead (snd R))
                      (bytesWritten (meter s)))
               (crashed s) (trace s))
      | Panicked e =>
          mkState (mpc s) (wpc s) TStuck (meter s) (Some e) (trace s)
      | Blocked =>
          mkState (mpc s) (wpc s) TStuck (meter s) (crashed s) (trace s)
      end
  | TAfter =>
      (* conn.Close(); close(rch) *)
      log (EvClose ByReader)
        (mkState (mpc s) (wpc s) TDone (meter s) (crashed s) (trace s))
  | _ => s
  end.

(** A step of the reading goroutine after [drainContext] has returned;
    [G] is what is left to it in this run.  A byte of a [Read] that was in
    flight makes [bytesRead] one more than [drainContext] left it; the
    goroutine is gone after that, so that letting it move again changes
    nothing. *)
Definition step_late (R : task_result) (G : Drain.late) (s : state) : state :=
  match rpc s with
  | TRun | TStuck => s
  | _ =>
      match G with
      | Drain.LateNothing => s
      | Drain.LatePanic e =>
          mkState (mpc s) (wpc s) (rpc s) (meter s) (Some e) (trace s)
      | Drain.LateByte =>
          mkState (mpc s) (wpc s) (rpc s)
            (mkCRW (ctx (meter s)) (int64_wrap (bytesRead (snd R) + 1))
                   (bytesWritten (meter s)))
            (crashed s) (trace s)
      end
  end.

(** The scheduler lets one goroutine move; a goroutine that cannot move
    stays where it is, and nothing moves once a panic took the process
    down. *)
Definition step (W R : task_result) (G : Drain.late) (t : tid) (s : state)
  : state :=
  match crashed s with
  | Some _ => s
  | None =>
      match t with
      | Main => step_main s
      | WriterTask => step_writer W s
      | ReaderTask => step_reader R s
      | DrainGoroutine => step_late R G s
      end
  end.

Fixpoint exec (W R : task_result) (G : Drain.late) (sched : list tid)
  (s : state) : state :=
  match sched with
  | [] => s
  | t :: sched' => exec W R G sched' (step W R G t s)
  end.

(** The state in which [Run] starts the goroutines: the session is open. *)
Definition started : state := mkState MRecvW TRun TRun (new None) None [EvOpen].

Section WithMarshal.

Variable json_Marshal : Writer.ReconnectingPTYRequest -> list Byte.byte + error.

(** [writeRandomData(deadlineCtx, &crw, bytesPerTick, tick.C)] in the
    environment [env]. *)
Definition run_writer (bytesPerTick : Z) (env : Env) : task_result :=
  let '(out, ws) :=
    Writer.writeRandomData json_Marshal bytesPerTick (writer_script env)
      (Writer.start (new None)) in
  (out, Writer.crw ws).

(** [drainContext(deadlineCtx, &crw, bytesPerTick*2)] in the environment
    [env]. *)
Definition run_reader (bytesPerTick : Z) (env : Env) : task_result :=
  Drain.drainContext (maxAlloc env) (int64_wrap (bytesPerTick * 2))
    (reader_script env) (new None).

(** What is left to the reading goroutine when that call has returned. *)
Definition run_late (bytesPerTick : Z) (env : Env) : Drain.late :=
  Drain.drain_late (maxAlloc env) (int64_wrap (bytesPerTick * 2))
    (reader_script env) (new None).

(** [bytesPerTick = r.cfg.BytesPerSecond / r.cfg.TicksPerSecond]: Go's
    integer division truncates toward zero. *)
Definition bytesPerTick (cfg : Config) : Z :=
  int64_wrap (Z.quot (BytesPerSecond cfg) (TicksPerSecond cfg)).

(** [Run], up to the point where the goroutines are started, and then under
    the schedule [sched]. *)
Definition Run (cfg : Config) (env : Env) (sched : list tid) : state :=
  if TicksPerSecond cfg =? 0 then
    (* r.cfg.BytesPerSecond / r.cfg.TicksPerSecond *)
    mkState MRecvW TRun TRun (new None)
      (Some (errors_New "integer divide by zero")) []
  else
    let tickInterval := TicksPerSecond cfg in
    match open_err env with
    | Some err =>
        let res := Some (xerrors_Errorf "connect to workspace" err) in
        mkState (MReturned res) TRun TRun (new None) None [EvOpen; EvReturn res]
    | None =>
        if tickInterval <=? 0 then
          (* time.NewTicker panics; the deferred close still runs *)
          mkState MRecvW TRun TRun (new None)
            (Some (errors_New "non-positive interval for NewTicker"))
            [EvOpen; EvClose ByDefer]
        else
          exec (run_writer (bytesPerTick cfg) env)
               (run_reader (bytesPerTick cfg) env)
               (run_late (bytesPerTick cfg) env) sched started
    end.

End WithMarshal.

(** What [Run] has produced in a state: its return value, a panic, or
    nothing yet. *)
Definition result (s : state) : outcome (option error) :=
  match crashed s with
  | Some e => Panicked e
  | None =>
      match mpc s with
      | MReturned res => Returned res
      | _ => Blocked
      end
  end.

(** How often [conn.Close()] was invoked, in all and by one caller. *)
Definition is_close (e : event) : bool :=
  match e with EvClose _ => true | _ => false end.

Definition is_close_by (c : closer) (e : event) : bool :=
  match e, c with
  | EvClose ByDefer, ByDefer | EvClose ByReader, ByReader => true
  | _, _ => false
  end.


Definition closes_by (c : closer) (tr : list event) : nat :=
  List.length (filter (is_close_by c) tr).

(** Classes of events. *)
Definition is_writer_done (e : event) : bool :=
  match e with EvWriterDone _ => true | _ => false end.
Definition is_reader_done (e : event) : bool :=
  match e with EvReaderDone _ => true | _ => false end.
Definition is_recvW (e : event) : bool :=
  match e with EvRecvW => true | _ => false end.
Definition is_recvR (e : event) : bool :=
  match e with EvRecvR => true | _ => false end.
Definition is_read_sent (e : event) : bool :=
  match e with EvBytesWritten _ => true | _ => false end.
Definition is_read_rcvd (e : event) : bool :=
  match e with EvBytesRead _ => true | _ => false end.

(** Every event of the trace in the class [X] has an earlier event in the
    class [Y]. *)
Definition preceded_by (Y X : event -> bool) (tr : list event) : Prop :=
  forall pre x post,
    tr = pre ++ x :: post -> X x = true -> existsb Y pre = true.

(** The error [Run] returns for the two tasks' results: the writer's first. *)
Definition join (wErr rErr : option error) : option error :=
  match wErr with
  | Some e => Some (xerrors_Errorf "write to pty" e)
  | None =>
      match rErr with
      | Some e => Some (xerrors_Errorf "read from pty" e)
      | None => None
      end
  end.

(** *** The invariant of a run *)

Section Invariant.

Variables W R : task_result.

(** A task whose result [Run] has not received yet, and one whose result it
    has. *)
Definition pre_recv (T : task_result) (pc : task_pc) : Prop :=
  match pc with
  | TRun | TStuck => True
  | TSend err => fst T = Returned err
  | TAfter | TDone => False
  end.

Definition post_recv (pc : task_pc) : Prop :=
  match pc with
  | TAfter | TDone => True
  | _ => False
  end.

(** How the three program counters go together. *)
Definition coherent (s : state) : Prop :=
  match mpc s with
  | MRecvW => pre_recv W (wpc s) /\ pre_recv R (rpc s)
  | MRecvR => fst W = Returned None /\ post_recv (wpc s) /\ pre_recv R (rpc s)
  | MBytesWritten | MBytesRead =>
      fst W = Returned None /\ fst R = Returned None /\
      post_recv (wpc s) /\ post_recv (rpc s)
  | MDefer res | MReturned res =>
      post_recv (wpc s) /\
      match fst W with
      | Returned (Some e) =>
          pre_recv R (rpc s) /\ res = join (Some e) None
      | Returned None =>
          post_recv (rpc s) /\
          match fst R with
          | Returned rErr => res = join None rErr
          | _ => False
          end
      | _ => False
      end
  end.

(** What the trace holds, read off the program counters. *)
Definition came_back (pc : task_pc) : bool :=
  match pc with TRun | TStuck => false | _ => true end.

Definition handed_over (pc : task_pc) : bool :=
  match pc with TAfter | TDone => true | _ => false end.

Definition past_sent (pc : main_pc) : bool :=
  match pc with
  | MBytesRead | MDefer None | MReturned None => true
  | _ => false
  end.

Definition past_rcvd (pc : main_pc) : bool :=
  match pc with MDefer None | MReturned None => true | _ => false end.

Definition trace_facts (s : state) : Prop :=
  hd_error (trace s) = Some EvOpen /\
  existsb is_writer_done (trace s) = came_back (wpc s) /\
  existsb is_reader_done (trace s) = came_back (rpc s) /\
  existsb is_recvW (trace s) = handed_over (wpc s) /\
  existsb is_recvR (trace s) = handed_over (rpc s) /\
  existsb is_read_sent (trace s) = past_sent (mpc s) /\
  existsb is_read_rcvd (trace s) = past_rcvd (mpc s) /\
  closes_by ByDefer (trace s) =
    match mpc s with MReturned _ => 1%nat | _ => 0%nat end /\
  closes_by ByReader (trace s) =
    match rpc s with TDone => 1%nat | _ => 0%nat end.

(** The order of events. *)
Definition order_facts (s : state) : Prop :=
  preceded_by is_recvW is_recvR (trace s) /\
  preceded_by is_recvR (is_close_by ByReader) (trace s) /\
  preceded_by is_writer_done is_close (trace s) /\
  (fst W = Returned None -> preceded_by is_reader_done is_close (trace s)) /\
  (fst W = Returned None -> fst R = Returned None ->
   preceded_by is_read_sent (is_close_by ByDefer) (trace s) /\
   preceded_by is_read_rcvd (is_close_by ByDefer) (trace s)).

Definition invariant (s : state) : Prop :=
  coherent s /\ trace_facts s /\ order_facts s.

End Invariant.

(** *** The values of a run *)

Section Values.

Variables W R : task_result.
Variable G : Drain.late.

(** [n] is [bytesRead] as [drainContext] left it, or one more when the
    goroutine it left behind has added the byte of a [Read] that was in
    flight. *)
Definition read_count (n : Z) : Prop :=
  n = bytesRead (snd R) \/
  (G = Drain.LateByte /\ n = int64_wrap (bytesRead (snd R) + 1)).

(** The meter of a run holds [bytesWritten] as the writer left it and
    [bytesRead] as the reader and the goroutine it left behind made it, and
    the trace reports nothing else. *)
Definition values_facts (s : state) : Prop :=
  (came_back (wpc s) = true ->
   bytesWritten (meter s) = bytesWritten (snd W)) /\
  (came_back (rpc s) = true -> read_count (bytesRead (meter s))) /\
  (forall n, In (EvBytesWritten n) (trace s) -> n = bytesWritten (snd W)) /\
  (forall n, In (EvBytesRead n) (trace s) -> read_count n) /\
  (forall err, In (EvWriterDone err) (trace s) -> fst W = Returned err) /\
  (forall err, In (EvReaderDone err) (trace s) -> fst R = Returned err).

End Values.

End Runner.

(** ** Environments used in the examples *)

Module Examples.
Import Meter Writer Drain Runner.

(** A random source: [n] letters for a request of [n >= 0] bytes, an error
    for a negative request. *)
Definition letters (n : Z) : string + error :=
  if n <? 0 then inr (errors_New "negative length")
  else inl (string_of_list_ascii (repeat "a"%char (Z.to_nat n))).

(** [runtime.maxAlloc] on linux/amd64. *)
Definition linux_amd64 : Z := 2 ^ 48.

(** One second at ten ticks a second and a thousand bytes a second. *)
Definition cfg_1000 : Config := mkConfig 1000 10 1000000000.

(** Fewer bytes than ticks a second: [bytesPerTick] is 0. *)
Definition cfg_slow : Config := mkConfig 1 2 1000000000.

(** A schedule that lets every goroutine run to its end. *)
Definition fair : list tid :=
  [WriterTask; ReaderTask; Main; Main; Main; Main; Main; ReaderTask; WriterTask].

(** As [fair], but the reader task closes the connection as soon as its
    result was received. *)
Definition reader_closes_first : list tid :=
  [WriterTask; ReaderTask; Main; Main; ReaderTask; Main; Main; Main; WriterTask].

(** One full payload goes out and comes back, then the deadline ends the
    run. *)
Definition env_echo : Env :=
  mkEnv None
    [SelTick letters (accepted 111); SelCancel Deadline; SelDone]
    [DrRead true None; DrCancel Deadline; DrOuterDone] linux_amd64.

(** The deadline has passed before the tasks get to run: the writer takes
    [<-ctx.Done()]; the reading goroutine's first [Read] fails fast on the
    meter and the coordinating [select], with both channels ready, takes
    [errCh].  The stream itself never fails. *)
Definition env_expired : Env :=
  mkEnv None
    [SelCancel Deadline; SelDone]
    [DrCancel Deadline; DrRead false None; DrOuterRecv] linux_amd64.

(** The deadline has passed before the tasks get to run and both take
    [<-ctx.Done()]. *)
Definition env_expired_clean : Env :=
  mkEnv None [SelCancel Deadline; SelDone] [DrCancel Deadline; DrOuterDone]
    linux_amd64.




(** The first byte write fails; the reader is still draining. *)
Definition env_broken_pipe : Env :=
  mkEnv None
    [SelTick letters [WrAnswer 0 (Some (errors_New "broken pipe"))]]
    [] linux_amd64.

(** A tick is served at once; the reader is still draining. *)
Definition env_first_tick : Env :=
  mkEnv None [SelTick letters []] [] linux_amd64.

(** Ten ticks of ten data bytes each, every one of them written in full. *)
Definition ten_ticks : list sel_ev :=
  repeat (SelTick letters (accepted 21)) 10 ++ [SelCancel Deadline; SelDone].

(** Two ticks; the deadline cuts the second payload after five bytes. *)
Definition two_ticks_cut : list sel_ev :=
  [SelTick letters (accepted 14);
   SelTick letters (accepted 5 ++ [WrCancel Deadline]);
   SelDone].

(** A history of the meter. *)
Definition sample_history : list op :=
  [OpRead 1 None; OpWrite 1 None; OpWrite 1 None; OpRead 0 (Some io_EOF);
   OpRead 1 None; OpCancel Deadline; OpWrite 1 None; OpRead 1 None].


(** Two bytes arrive, then the connection is reset. *)
Definition reset_stream : list dr_ev :=
  [DrRead true None; DrRead true None;
   DrRead false (Some (errors_New "connection reset")); DrOuterRecv].

(** Two bytes arrive, then the remote side ends the stream. *)
Definition ended_stream : list dr_ev :=
  [DrRead true None; DrRead true None;
   DrRead false (Some (xerrors_Errorf "read" io_EOF)); DrOuterRecv].

(** A [Read] is in flight when the deadline passes; [drainContext] returns
    and the byte arrives after that. *)
Definition env_late_byte : Env :=
  mkEnv None
    [SelCancel Deadline; SelDone]
    [DrRead true None; DrCancel Deadline; DrOuterDone; DrRead true None]
    linux_amd64.

(** The goroutine left behind adds its byte before [Run] loads the
    counter. *)
Definition late_byte_first : list tid :=
  [WriterTask; ReaderTask; DrainGoroutine; Main; Main; Main; Main; Main;
   ReaderTask; WriterTask].

(** The session cannot be opened. *)
Definition env_refused : Env :=
  mkEnv (Some (errors_New "connection refused")) [] [] linux_amd64.

(** The stream resets while the reader drains; the writer ends with the
    deadline. *)
Definition env_reset : Env :=
  mkEnv None [SelCancel Deadline; SelDone] reset_stream linux_amd64.

End Examples.


(** * Facts about the model *)

#[local] Arguments Z.pow : simpl never.

Lemma int64_wrap_small (z : Z) :
  - 2 ^ 63 <= z < 2 ^ 63 -> int64_wrap z = z.
Proof.
  intros H. unfold int64_wrap.
  rewrite Z.mod_small; lia.
Qed.

(** ** The meter *)

Section MeterFacts.
Import Meter.

Lemma run_app (h1 h2 : list op) (w : countReadWriter) :
  run (h1 ++ h2) w = run h2 (run h1 w).
Proof.
  revert w. induction h1 as [|o h1 IH]; intros w; simpl; [reflexivity|apply IH].
Qed.

Lemma returned_ok_app (d : dir) (h1 h2 : list op) (w : countReadWriter) :
  returned_ok d (h1 ++ h2) w = returned_ok d h1 w + returned_ok d h2 (run h1 w).
Proof.
  revert w. induction h1 as [|o h1 IH]; intros w; simpl; [reflexivity|].
  destruct (run_op o w) as [res w'] eqn:E. simpl.
  destruct res as [[d' [n [e|]]]|]; rewrite ?IH; try reflexivity.
  destruct (dir_eqb d d'); lia.
Qed.

Lemma io_contract_app (h1 h2 : list op) :
  io_contract (h1 ++ h2) = io_contract h1 && io_contract h2.
Proof. apply forallb_app. Qed.

Lemma returned_ok_nonneg (d : dir) (h : list op) :
  io_contract h = true -> forall w, 0 <= returned_ok d h w.
Proof.
  induction h as [|o h IH]; intros Hc w; simpl; [lia|].
  simpl in Hc. apply andb_prop in Hc. destruct Hc as [Ho Hh].
  specialize (IH Hh).
  destruct o as [r|n err|n err]; simpl; [apply IH| |].
  - unfold Read. destruct (ctx_Err (ctx w)); [apply IH|].
    destruct err; [apply IH|].
    destruct d; simpl; [|apply IH].
    apply Z.leb_le in Ho. specialize (IH (addRead n w)). lia.
  - unfold Write. destruct (ctx_Err (ctx w)); [apply IH|].
    destruct err; [apply IH|].
    destruct d; simpl; [apply IH|].
    apply Z.leb_le in Ho. specialize (IH (addWritten n w)). lia.
Qed.

(** From any meter whose counters are not negative, a history that keeps to
    the contract and whose sums fit into 63 bits adds exactly the returned
    counts. *)
Lemma run_adds (h : list op) :
  io_contract h = true ->
  forall w,
    0 <= bytesRead w -> 0 <= bytesWritten w ->
    bytesRead w + returned_ok Rd h w < 2 ^ 63 ->
    bytesWritten w + returned_ok Wr h w < 2 ^ 63 ->
    bytesRead (run h w) = bytesRead w + returned_ok Rd h w /\
    bytesWritten (run h w) = bytesWritten w + returned_ok Wr h w.
Proof.
  induction h as [|o h IH]; intros Hc w Hr Hw Hfr Hfw; simpl in *; [lia|].
  apply andb_prop in Hc. destruct Hc as [Ho Hh].
  specialize (IH Hh).
  pose proof (returned_ok_nonneg Rd h Hh) as NR.
  pose proof (returned_ok_nonneg Wr h Hh) as NW.
  destruct o as [r|n err|n err]; simpl in *.
  - apply (IH (with_ctx (ctx_cancel r (ctx w)) w)); simpl; assumption.
  - unfold Read in *. destruct (ctx_Err (ctx w)); simpl in *; [apply IH; assumption|].
    destruct err; simpl in *; [apply IH; assumption|].
    apply Z.leb_le in Ho.
    specialize (NR (addRead n w)).
    assert (Hs : int64_wrap (bytesRead w + n) = bytesRead w + n)
      by (apply int64_wrap_small; lia).
    destruct (IH (addRead n w)) as [A B]; simpl; rewrite ?Hs; try lia.
    simpl in A, B. rewrite Hs in A. split; lia.
  - unfold Write in *. destruct (ctx_Err (ctx w)); simpl in *; [apply IH; assumption|].
    destruct err; simpl in *; [apply IH; assumption|].
    apply Z.leb_le in Ho.
    specialize (NW (addWritten n w)).
    assert (Hs : int64_wrap (bytesWritten w + n) = bytesWritten w + n)
      by (apply int64_wrap_small; lia).
    destruct (IH (addWritten n w)) as [A B]; simpl; rewrite ?Hs; try lia.
    simpl in A, B. rewrite Hs in B. split; lia.
Qed.

End MeterFacts.

(** ** The writer *)

Section WriterFacts.
Import Meter Writer.

Local Notation "'BW' s" := (bytesWritten (crw s)) (at level 10, s at level 9).
Local Notation "'len' l" := (Z.of_nat (List.length l)) (at level 10, l at level 9).

Lemma dst_Write_from_emitted (ws : list wr_ev) :
  forall w em, emitted (snd (dst_Write_from ws w em)) = em.
Proof.
  induction ws as [|[r|n err] ws IH]; intros w em; simpl.
  - destruct (ctx_Err (ctx w)); reflexivity.
  - apply IH.
  - destruct (Write (n, err) w); reflexivity.
Qed.

Lemma copy_loop_emitted (src : list Byte.byte) :
  forall count s, emitted (snd (copy_loop src count s)) = emitted s.
Proof.
  induction src as [|b src IH]; intros count s; simpl; [reflexivity|].
  unfold bind, dst_Write.
  pose proof (dst_Write_from_emitted (answers s) (crw s) (emitted s)) as E.
  destruct (dst_Write_from (answers s) (crw s) (emitted s)) as [[res| |] s1];
    simpl in *; try exact E.
  destruct (snd res) as [err|].
  - destruct (xerrors_Is err io_EOF); [exact E|].
    destruct (xerrors_Is err context_DeadlineExceeded); exact E.
  - rewrite IH. exact E.
Qed.

Lemma copyContext_emitted (src : list Byte.byte) (s : wstate) :
  emitted (snd (copyContext src s)) = emitted s \/
  emitted (snd (copyContext src s)) = emitted s ++ [src].
Proof.
  unfold copyContext, bind, ctx_done, emit, ret. simpl.
  destruct (ctx_Done (ctx (crw s))); simpl; [left; reflexivity|].
  right. rewrite copy_loop_emitted. reflexivity.
Qed.

Lemma dst_Write_from_paced (ws : list wr_ev) :
  forallb wr_paced ws = true ->
  forall w em,
    ctx w <> Some CallerCancel ->
    0 <= bytesWritten w < 2 ^ 63 - 1 ->
    match dst_Write_from ws w em with
    | (Returned res, s1) =>
        forallb wr_paced (answers s1) = true /\ emitted s1 = em /\
        ctx (crw s1) <> Some CallerCancel /\
        ((res = (1, None) /\ BW s1 = bytesWritten w + 1) \/
         (res = (0, Some context_DeadlineExceeded) /\ BW s1 = bytesWritten w /\
          ctx (crw s1) = Some Deadline))
    | (Panicked _, _) => False
    | (Blocked, s1) =>
        emitted s1 = em /\ BW s1 = bytesWritten w /\
        ctx (crw s1) <> Some CallerCancel
    end.
Proof.
  induction ws as [|[r|n err] ws IH]; intros Hp w em Hc Hb; simpl in *.
  - destruct (ctx w) as [[|]|] eqn:E; simpl; rewrite ?E; try congruence.
    + repeat split; auto; try congruence.
    + repeat split; auto; try congruence.
  - apply andb_prop in Hp. destruct Hp as [Hr Hp].
    destruct r; [|discriminate].
    specialize (IH Hp (with_ctx (ctx_cancel Deadline (ctx w)) w) em).
    simpl in IH. apply IH; auto.
    destruct (ctx w) as [[|]|]; simpl; congruence.
  - apply andb_prop in Hp. destruct Hp as [Hn Hp].
    destruct err; [discriminate|]. apply Z.eqb_eq in Hn. subst n.
    unfold Write. destruct (ctx w) as [[|]|] eqn:E; simpl; rewrite ?E; try congruence.
    + repeat split; auto; try congruence.
    + repeat split; auto; try congruence. left. split; [reflexivity|].
      apply int64_wrap_small. lia.
Qed.

Lemma copy_loop_paced (src : list Byte.byte) :
  forall count s,
    forallb wr_paced (answers s) = true ->
    ctx (crw s) <> Some CallerCancel ->
    0 <= BW s -> BW s + len src < 2 ^ 63 ->
    match copy_loop src count s with
    | (Returned res, s') =>
        snd res = None /\ ctx (crw s') <> Some CallerCancel /\
        emitted s' = emitted s /\
        BW s <= BW s' <= BW s + len src /\
        (ctx (crw s') = None -> BW s' = BW s + len src)
    | (Panicked _, _) => False
    | (Blocked, s') =>
        emitted s' = emitted s /\ BW s <= BW s' <= BW s + len src
    end.
Proof.
  induction src as [|b src IH]; intros count s Hp Hc H0 Hfit.
  - simpl. repeat split; auto; lia.
  - assert (Hlen : len (b :: src) = len src + 1)
      by (cbn [List.length]; lia).
    rewrite Hlen in *. clear Hlen.
    cbn [copy_loop]. unfold bind, dst_Write.
    pose proof (dst_Write_from_paced (answers s) Hp (crw s) (emitted s) Hc) as W.
    specialize (W ltac:(lia)).
    destruct (dst_Write_from (answers s) (crw s) (emitted s)) as [[res| |] s1];
      [|contradiction|].
    + destruct W as (Hp1 & Hem & Hc1 & [[-> Hbw]|[-> [Hbw Hctx]]]); cbn [fst snd].
      * specialize (IH (int64_wrap (count + 1)) s1 Hp1 Hc1 ltac:(lia) ltac:(lia)).
        destruct (copy_loop src (int64_wrap (count + 1)) s1) as [[r2| |] s2];
          [|contradiction|].
        -- destruct IH as (A & B & C & D & E).
           repeat split; auto; try congruence; try lia.
           intros L. specialize (E L). lia.
        -- destruct IH as (C & D).
           repeat split; try congruence; lia.
      * simpl. repeat split; auto; try congruence; try lia.
    + destruct W as (Hem & Hbw & Hc1).
      repeat split; auto; lia.
Qed.

Lemma total_length_app (l1 l2 : list (list Byte.byte)) :
  total_length (l1 ++ l2) = total_length l1 + total_length l2.
Proof. induction l1 as [|d l1 IH]; simpl; [reflexivity|lia]. Qed.

Lemma total_length_nonneg (l : list (list Byte.byte)) : 0 <= total_length l.
Proof. induction l as [|d l IH]; simpl; lia. Qed.

Lemma last_length_snoc (l : list (list Byte.byte)) (d : list Byte.byte) :
  last_length (l ++ [d]) = len d.
Proof. unfold last_length. rewrite last_last. reflexivity. Qed.

Lemma paced_inv_bounds (s : wstate) : paced_inv s -> paced_bounds s.
Proof. intros (A & B & C & D & E). split; assumption. Qed.



Section WithMarshal.
Variable json_Marshal : ReconnectingPTYRequest -> list Byte.byte + error.

Lemma writeRandomData_cancel (size : Z) (r : reason) (tick : list sel_ev)
  (s : wstate) :
  writeRandomData json_Marshal size (SelCancel r :: tick) s =
  writeRandomData json_Marshal size tick
    (mkW (with_ctx (ctx_cancel r (ctx (crw s))) (crw s)) (answers s) (emitted s)).
Proof. reflexivity. Qed.

Lemma writeRandomData_done (size : Z) (tick : list sel_ev) (s : wstate) :
  writeRandomData json_Marshal size (SelDone :: tick) s =
  if ctx_Done (ctx (crw s)) then (Returned None, s) else (Blocked, s).
Proof.
  cbn [writeRandomData]. unfold bind, ctx_done.
  destruct (ctx_Done (ctx (crw s))); reflexivity.
Qed.

Lemma writeRandomData_tick (size : Z) (rnd : Z -> string + error)
  (ws : list wr_ev) (tick : list sel_ev) (s : wstate) :
  writeRandomData json_Marshal size (SelTick rnd ws :: tick) s =
  match rnd (int64_wrap (size - 1)) with
  | inr err => (Panicked err, s)
  | inl randStr =>
      match json_Marshal (mkRequest (String "#" randStr)) with
      | inr err => (Returned (Some err), s)
      | inl data =>
          match copyContext data (mkW (crw s) ws (emitted s)) with
          | (Returned res, s2) =>
              match snd res with
              | Some err => (Returned (Some err), s2)
              | None => writeRandomData json_Marshal size tick s2
              end
          | (Panicked e, s2) => (Panicked e, s2)
          | (Blocked, s2) => (Blocked, s2)
          end
      end
  end.
Proof.
  cbn [writeRandomData]. unfold bind at 1, mustRandStr.
  destruct (rnd (int64_wrap (size - 1))) as [randStr|err]; [|reflexivity]. cbn [ret].
  destruct (json_Marshal (mkRequest (String "#" randStr))); [|reflexivity].
  unfold bind, set_answers.
  destruct (copyContext l (mkW (crw s) ws (emitted s))) as [[res| |] s2];
    try reflexivity.
  destruct (snd res); reflexivity.
Qed.

Lemma writeRandomData_emits_ok (size : Z) (tick : list sel_ev) :
  1 <= size < 2 ^ 63 ->
  generator_ok tick ->
  forall s,
    Forall (payload_ok json_Marshal size) (emitted s) ->
    Forall (payload_ok json_Marshal size)
      (emitted (snd (writeRandomData json_Marshal size tick s))).
Proof.
  intros Hsize.
  induction tick as [|ev tick IH]; intros Hg s Hs; [exact Hs|].
  inversion Hg as [|ev' tick' Hev Hg']; subst.
  specialize (IH Hg').
  destruct ev as [r| |rnd ws].
  - rewrite writeRandomData_cancel. apply IH. exact Hs.
  - rewrite writeRandomData_done.
    destruct (ctx_Done (ctx (crw s))); exact Hs.
  - rewrite writeRandomData_tick.
    destruct (rnd (int64_wrap (size - 1))) as [randStr|err] eqn:Ernd; [|exact Hs].
    destruct (json_Marshal (mkRequest (String "#" randStr))) as [data|err] eqn:EM;
      [|exact Hs].
    set (s1 := mkW (crw s) ws (emitted s)).
    pose proof (copyContext_emitted data s1) as E.
    assert (Hs1 : Forall (payload_ok json_Marshal size)
                    (emitted (snd (copyContext data s1)))).
    { destruct E as [E|E]; rewrite E; simpl; [exact Hs|].
      apply Forall_app. split; [exact Hs|].
      constructor; [|constructor].
      exists (mkRequest (String "#" randStr)). split; [exact EM|].
      split; [exists randStr; reflexivity|].
      cbn [Data String.length].
      rewrite int64_wrap_small in Ernd by lia.
      pose proof (Hev (size - 1) randStr ltac:(lia) Ernd). lia. }
    destruct (copyContext data s1) as [[res| |] s2]; simpl in *; try exact Hs1.
    destruct (snd res); [exact Hs1|]. apply IH. exact Hs1.
Qed.

Lemma writeRandomData_emitted_grows (size : Z) (tick : list sel_ev) :
  forall s, exists more,
    emitted (snd (writeRandomData json_Marshal size tick s)) = emitted s ++ more.
Proof.
  induction tick as [|ev tick IH]; intros s.
  - exists []. rewrite app_nil_r. reflexivity.
  - destruct ev as [r| |rnd ws].
    + rewrite writeRandomData_cancel.
      destruct (IH (mkW (with_ctx (ctx_cancel r (ctx (crw s))) (crw s))
                      (answers s) (emitted s))) as [m H].
      exists m. exact H.
    + rewrite writeRandomData_done. exists []. rewrite app_nil_r.
      destruct (ctx_Done (ctx (crw s))); reflexivity.
    + rewrite writeRandomData_tick.
      destruct (rnd (int64_wrap (size - 1))) as [randStr|err];
        [|exists []; rewrite app_nil_r; reflexivity].
      destruct (json_Marshal (mkRequest (String "#" randStr))) as [data|err];
        [|exists []; rewrite app_nil_r; reflexivity].
      set (s1 := mkW (crw s) ws (emitted s)).
      pose proof (copyContext_emitted data s1) as E.
      assert (G : exists more, emitted (snd (copyContext data s1)) = emitted s ++ more).
      { destruct E as [E|E]; rewrite E; simpl;
          [exists []; rewrite app_nil_r; reflexivity | exists [data]; reflexivity]. }
      destruct (copyContext data s1) as [[res| |] s2]; simpl in *; try exact G.
      destruct (snd res); [exact G|].
      destruct G as [m1 G]. destruct (IH s2) as [m2 H2].
      exists (m1 ++ m2). rewrite H2, G, app_assoc. reflexivity.
Qed.

Lemma writeRandomData_paced (size : Z) (tick : list sel_ev) :
  paced tick = true ->
  forall s,
    paced_inv s ->
    total_length (emitted (snd (writeRandomData json_Marshal size tick s)))
      < 2 ^ 63 ->
    paced_bounds (snd (writeRandomData json_Marshal size tick s)) /\
    (forall err,
        fst (writeRandomData json_Marshal size tick s) = Returned (Some err) ->
        exists req, json_Marshal req = inr err).
Proof.
  induction tick as [|ev tick IH]; intros Hp s Hs Hfit; simpl in Hp.
  - split; [apply paced_inv_bounds; exact Hs|]. intros err H. discriminate H.
  - apply andb_prop in Hp. destruct Hp as [Hev Hp]. specialize (IH Hp).
    destruct ev as [r| |rnd ws].
    + destruct r; [|discriminate].
      rewrite writeRandomData_cancel in *.
      apply IH; [|exact Hfit].
      destruct Hs as (A & B & C & D & E). unfold paced_inv. simpl.
      repeat split; auto.
      * destruct (ctx (crw s)) as [[|]|]; simpl; congruence.
      * destruct (ctx (crw s)) as [[|]|]; simpl; try congruence.
    + rewrite writeRandomData_done in *.
      destruct (ctx_Done (ctx (crw s))); simpl;
        (split; [apply paced_inv_bounds; exact Hs|]);
        intros err H; discriminate H.
    + rewrite writeRandomData_tick in *.
      destruct (rnd (int64_wrap (size - 1))) as [randStr|err];
        [|split; [apply paced_inv_bounds; exact Hs|intros e H; discriminate H]].
      destruct (json_Marshal (mkRequest (String "#" randStr))) as [data|err] eqn:EM.
      2:{ split; [apply paced_inv_bounds; exact Hs|].
          intros e H. injection H as <-. eauto. }
      set (s1 := mkW (crw s) ws (emitted s)) in *.
      (* the copy of this tick's payload *)
      assert (Hcopy : forall out s2, copyContext data s1 = (out, s2) ->
                total_length (emitted s2) < 2 ^ 63 ->
                paced_bounds s2 /\
                match out with
                | Returned res => snd res = None /\ paced_inv s2
                | Panicked _ => False
                | Blocked => True
                end).
      { intros out s2 Hc Hf. unfold copyContext, bind, ctx_done in Hc.
        simpl in Hc. destruct Hs as (A & B & C & D & E).
        destruct (ctx (crw s)) as [why|] eqn:Ectx; simpl in Hc.
        - injection Hc as <- <-.
          assert (P : paced_inv s1).
          { unfold paced_inv. simpl. rewrite Ectx. repeat split; auto. }
          split; [apply paced_inv_bounds; exact P|]. split; [reflexivity|exact P].
        - specialize (E eq_refl).
          set (s1' := mkW (crw s) ws (emitted s ++ [data])) in *.
          pose proof (copy_loop_paced data 0 s1' Hev) as CL.
          pose proof (copy_loop_emitted data 0 s1') as CE.
          rewrite Hc in CE. simpl in CE.
          rewrite CE, total_length_app in Hf. simpl in Hf.
          simpl in CL. rewrite Ectx in CL.
          specialize (CL ltac:(congruence) B ltac:(lia)).
          rewrite Hc in CL.
          unfold paced_bounds, paced_inv.
          rewrite CE, total_length_app, last_length_snoc.
          simpl.
          destruct out as [res| |]; [|contradiction|].
          + destruct CL as (R1 & R2 & R3 & R4 & R5).
            split; [lia|]. split; [exact R1|]. repeat split; auto; try lia.
            intros L. specialize (R5 L). lia.
          + destruct CL as (R3 & R4). split; [lia|exact I]. }
      destruct (copyContext data s1) as [out s2] eqn:Hc.
      destruct (writeRandomData_emitted_grows size tick s2) as [more G].
      assert (Hf2 : total_length (emitted s2) < 2 ^ 63).
      { destruct out as [res| |]; cbn [fst snd] in Hfit; try exact Hfit.
        destruct (snd res); cbn [fst snd] in Hfit; try exact Hfit.
        rewrite G, total_length_app in Hfit.
        pose proof (total_length_nonneg more). lia. }
      destruct (Hcopy out s2 eq_refl Hf2) as [Bnd Out].
      destruct out as [res| |]; [|contradiction|].
      * destruct Out as [Rn Inv]. rewrite Rn in *.
        apply IH; [exact Inv|exact Hfit].
      * cbn [fst snd]. split; [exact Bnd|]. intros e H. discriminate H.
Qed.

Lemma copyContext_done (src : list Byte.byte) (s : wstate) :
  ctx_Done (ctx (crw s)) = true -> copyContext src s = (Returned (0, None), s).
Proof. intros H. unfold copyContext, bind, ctx_done. rewrite H. reflexivity. Qed.

Lemma writeRandomData_when_done (size : Z) (tick : list sel_ev) :
  forall s,
    ctx_Done (ctx (crw s)) = true ->
    bytesWritten (crw (snd (writeRandomData json_Marshal size tick s)))
      = bytesWritten (crw s) /\
    marshal_error_only json_Marshal (fst (writeRandomData json_Marshal size tick s)).
Proof.
  induction tick as [|ev tick IH]; intros s Hd.
  - split; [reflexivity|]. intros err H. discriminate H.
  - destruct ev as [r| |rnd ws].
    + rewrite writeRandomData_cancel.
      apply (IH (mkW (with_ctx (ctx_cancel r (ctx (crw s))) (crw s))
                   (answers s) (emitted s))).
      simpl. destruct (ctx (crw s)); [reflexivity|discriminate].
    + rewrite writeRandomData_done, Hd.
      split; [reflexivity|]. intros err H. discriminate H.
    + rewrite writeRandomData_tick.
      destruct (rnd (int64_wrap (size - 1))) as [randStr|err];
        [|split; [reflexivity|intros e H; discriminate H]].
      destruct (json_Marshal (mkRequest (String "#" randStr))) as [data|err] eqn:EM.
      2:{ split; [reflexivity|]. intros e H. injection H as <-. eauto. }
      rewrite copyContext_done by exact Hd. cbn [snd].
      apply (IH (mkW (crw s) ws (emitted s))). exact Hd.
Qed.


End WithMarshal.
End WriterFacts.

Section ScopeFacts.
Import Meter Writer.

Lemma with_ctx_same (w : countReadWriter) : with_ctx (ctx w) w = w.
Proof. destruct w; reflexivity. Qed.

(** A byte write on a meter whose scope is done fails fast with the
    scope's reason and leaves the meter as it was. *)
Lemma dst_Write_from_done (ws : list wr_ev) :
  forall w em r,
    ctx w = Some r ->
    exists ws',
      dst_Write_from ws w em = (Returned (0, ctx_Err (Some r)), mkW w ws' em).
Proof.
  induction ws as [|[r'|n err] ws IH]; intros w em r Hc; simpl.
  - exists []. rewrite Hc. destruct r; reflexivity.
  - rewrite Hc. simpl. rewrite <- Hc, with_ctx_same. apply IH. exact Hc.
  - exists ws. unfold Write. rewrite Hc. destruct r; reflexivity.
Qed.

Lemma ticks_cons (ev : sel_ev) (tick : list sel_ev) :
  ticks (ev :: tick) =
  match ev with SelTick _ _ => 1 + ticks tick | _ => ticks tick end.
Proof.
  unfold ticks. destruct ev; cbn [filter List.length]; lia.
Qed.

Lemma emitted_le_ticks
  (json_Marshal : ReconnectingPTYRequest -> list Byte.byte + error)
  (size : Z) (tick : list sel_ev) :
  forall s,
    Z.of_nat (List.length (emitted (snd (writeRandomData json_Marshal size tick s))))
    <= Z.of_nat (List.length (emitted s)) + ticks tick.
Proof.
  induction tick as [|ev tick IH]; intros s.
  - cbn [writeRandomData]. unfold block, ticks. cbn [fst snd filter List.length]. lia.
  - assert (T : 0 <= ticks tick) by (unfold ticks; lia).
    rewrite ticks_cons. destruct ev as [r| |rnd ws].
    + rewrite writeRandomData_cancel. apply (IH (mkW _ _ _)).
    + rewrite writeRandomData_done.
      destruct (ctx_Done (ctx (crw s))); cbn [fst snd]; lia.
    + rewrite writeRandomData_tick.
      destruct (rnd (int64_wrap (size - 1))) as [randStr|err]; [|cbn [fst snd]; lia].
      destruct (json_Marshal (mkRequest (String "#" randStr))) as [data|err];
        [|cbn [fst snd]; lia].
      pose proof (copyContext_emitted data (mkW (crw s) ws (emitted s))) as E.
      destruct (copyContext data (mkW (crw s) ws (emitted s)))
        as [[res| |] s2]; cbn [fst snd] in E.
      * assert (L : Z.of_nat (List.length (emitted s2))
                    <= Z.of_nat (List.length (emitted s)) + 1).
        { destruct E as [E|E]; rewrite E; rewrite ?length_app; cbn [emitted List.length]; lia. }
        destruct (snd res); [cbn [fst snd]; lia|].
        specialize (IH s2). lia.
      * destruct E as [E|E]; cbn [fst snd]; rewrite E; rewrite ?length_app; cbn [emitted List.length]; lia.
      * destruct E as [E|E]; cbn [fst snd]; rewrite E; rewrite ?length_app; cbn [emitted List.length]; lia.
Qed.

End ScopeFacts.

(** ** The runner *)

Section RunnerFacts.
Import Meter Runner.

Variables W R : task_result.
Variable G : Drain.late.

Lemma coherent_step (t : tid) (s : state) :
  coherent W R s -> coherent W R (step W R G t s).
Proof.
  destruct s as [m w r mt cr tr].
  unfold step, coherent, step_main, step_writer, step_reader, step_late. simpl.
  destruct cr; [tauto|].
  destruct t;
    [ | | | destruct r; try tauto; destruct G; simpl; tauto ];
    destruct m; destruct w; destruct r; simpl; try tauto;
    destruct (fst W) as [[we|]| |] eqn:EW; simpl; try tauto; try solve [intuition congruence];
    destruct (fst R) as [[re|]| |] eqn:ER; simpl; try tauto; try solve [intuition congruence];
    repeat match goal with
      | |- context [match ?e with Some _ => _ | None => _ end] =>
          destruct e; simpl
      end; solve [intuition congruence].
Qed.
Lemma hd_error_snoc {A} (l : list A) (x y : A) :
  hd_error l = Some x -> hd_error (l ++ [y]) = Some x.
Proof. destruct l; simpl; [discriminate|auto]. Qed.

Lemma closes_by_snoc (c : closer) (tr : list event) (e : event) :
  closes_by c (tr ++ [e]) =
  (closes_by c tr + if is_close_by c e then 1 else 0)%nat.
Proof.
  unfold closes_by. rewrite filter_app, length_app. simpl.
  destruct (is_close_by c e); reflexivity.
Qed.

Lemma preceded_by_snoc (Y X : event -> bool) (tr : list event) (x : event) :
  preceded_by Y X tr ->
  (X x = true -> existsb Y tr = true) ->
  preceded_by Y X (tr ++ [x]).
Proof.
  intros H Hx pre x' post E Hx'.
  destruct (exists_last (l := x' :: post)) as (post' & z & Ez); [discriminate|].
  rewrite Ez in E. rewrite app_assoc in E.
  apply app_inj_tail in E. destruct E as [E1 E2]. subst z.
  destruct post as [|p post].
  - destruct post'; simpl in Ez; [|destruct post'; discriminate].
    injection Ez as <-. rewrite app_nil_r in E1. subst pre. auto.
  - destruct (exists_last (l := p :: post)) as (q & z & Eq); [discriminate|].
    rewrite Eq in Ez. change (x' :: q ++ [z]) with ((x' :: q) ++ [z]) in Ez.
    apply app_inj_tail in Ez. destruct Ez as [Ez _]. subst post'.
    apply (H pre x' q); auto.
Qed.

Lemma trace_facts_step (t : tid) (s : state) :
  coherent W R s -> trace_facts s -> trace_facts (step W R G t s).
Proof.
  destruct s as [m w r mt cr tr].
  unfold step, coherent, trace_facts, step_main, step_writer, step_reader,
    step_late, log.
  simpl.
  destruct cr; [tauto|].
  intros C (F0 & F1 & F2 & F3 & F4 & F5 & F6 & F7 & F8).
  assert (F0' : forall e, hd_error (tr ++ [e]) = Some EvOpen)
    by (intros e; apply hd_error_snoc; exact F0).
  assert (F0'' : forall e e', hd_error ((tr ++ [e]) ++ [e']) = Some EvOpen)
    by (intros e e'; apply hd_error_snoc, F0').
  destruct t.
  - (* Run itself *)
    destruct m; simpl in *.
    + destruct w as [| |e| |]; simpl; try solve [intuition].
      destruct e; simpl; rewrite ?existsb_app, ?closes_by_snoc, F0';
        rewrite F1, F2, F3, F4, F5, F6, F7, F8; simpl;
        rewrite ?orb_false_r, ?orb_true_r, ?Nat.add_0_r; intuition.
    + destruct r as [| |e| |]; simpl; try solve [intuition].
      destruct e; simpl; rewrite ?existsb_app, ?closes_by_snoc, F0';
        rewrite F1, F2, F3, F4, F5, F6, F7, F8; simpl;
        rewrite ?orb_false_r, ?orb_true_r, ?Nat.add_0_r;
        destruct w; simpl in *; intuition.
    + rewrite ?existsb_app, ?closes_by_snoc, F0';
        rewrite F1, F2, F3, F4, F5, F6, F7, F8; simpl;
        rewrite ?orb_false_r, ?orb_true_r, ?Nat.add_0_r; intuition.
    + rewrite ?existsb_app, ?closes_by_snoc, F0';
        rewrite F1, F2, F3, F4, F5, F6, F7, F8; simpl;
        rewrite ?orb_false_r, ?orb_true_r, ?Nat.add_0_r; intuition.
    + rewrite ?existsb_app, ?closes_by_snoc, F0'';
        rewrite F1, F2, F3, F4, F5, F6, F7, F8; simpl;
        rewrite ?orb_false_r, ?orb_true_r, ?Nat.add_0_r;
        destruct res; simpl; intuition.
    + intuition.
  - (* the writer task *)
    destruct w; simpl; try solve [intuition].
    destruct (fst W) as [wErr| |]; simpl; try solve [intuition].
    rewrite ?existsb_app, ?closes_by_snoc, F0';
      rewrite F1, F2, F3, F4, F5, F6, F7, F8; simpl;
      rewrite ?orb_false_r, ?orb_true_r, ?Nat.add_0_r; intuition.
  - (* the reader task *)
    destruct r; simpl; try solve [intuition].
    + destruct (fst R) as [rErr| |]; simpl; try solve [intuition].
      rewrite ?existsb_app, ?closes_by_snoc, F0';
        rewrite F1, F2, F3, F4, F5, F6, F7, F8; simpl;
        rewrite ?orb_false_r, ?orb_true_r, ?Nat.add_0_r; intuition.
    + rewrite ?existsb_app, ?closes_by_snoc, F0';
        rewrite F1, F2, F3, F4, F5, F6, F7, F8; simpl;
        rewrite ?orb_false_r, ?orb_true_r, ?Nat.add_0_r; intuition.
  - (* the goroutine left behind *)
    destruct r; try solve [intuition]; destruct G; simpl; intuition.
Qed.

Ltac by_snoc :=
  intros;
  repeat match goal with
    | H : ?P -> _, H' : ?P |- _ => specialize (H H')
    end;
  repeat match goal with H : _ /\ _ |- _ => destruct H end;
  repeat first [ assumption | apply preceded_by_snoc ];
  simpl; intros; try discriminate.

Lemma order_facts_step (t : tid) (s : state) :
  coherent W R s -> trace_facts s -> order_facts W R s -> order_facts W R (step W R G t s).
Proof.
  destruct s as [m w r mt cr tr].
  unfold step, coherent, trace_facts, order_facts,
    step_main, step_writer, step_reader, step_late, log.
  simpl.
  destruct cr; [tauto|].
  intros C (F0 & F1 & F2 & F3 & F4 & F5 & F6 & F7 & F8) (O1 & O2 & O3 & O4 & O5).
  destruct t.
  - (* Run itself *)
    destruct m; simpl in *.
    + destruct w as [| |e| |]; simpl; try solve [intuition].
      destruct e; simpl; repeat split; by_snoc.
    + destruct C as (CW & Cw & Cr).
      destruct r as [| |e| |]; simpl; try solve [intuition].
      destruct e; simpl; repeat split; by_snoc;
        rewrite F3; destruct w; simpl in *; tauto.
    + repeat split; by_snoc.
    + repeat split; by_snoc.
    + destruct C as (Cw & C).
      repeat split; by_snoc; rewrite ?existsb_app, ?F1, ?F2, ?F5, ?F6.
      * destruct w; simpl in *; tauto.
      * rewrite H in C. destruct C as (Cr & _).
        destruct r; simpl in *; tauto.
      * rewrite H, H0 in C. destruct C as (_ & ->). reflexivity.
      * rewrite H, H0 in C. destruct C as (_ & ->). reflexivity.
    + intuition.
  - (* the writer task *)
    destruct w; simpl; try solve [intuition].
    destruct (fst W) as [wErr| |]; simpl; try solve [intuition].
    repeat split; by_snoc.
  - (* the reader task *)
    destruct r; simpl; try solve [intuition].
    + destruct (fst R) as [rErr| |]; simpl; try solve [intuition].
      repeat split; by_snoc.
    + repeat split; by_snoc; rewrite ?F1, ?F2, ?F4; simpl; auto.
      destruct m; simpl in *; destruct w; simpl in *; tauto.
  - (* the goroutine left behind *)
    destruct r; try solve [intuition]; destruct G; simpl; intuition.
Qed.

Lemma invariant_started : invariant W R started.
Proof.
  unfold invariant, coherent, trace_facts, order_facts, started. simpl.
  repeat split; intros; auto;
    intros pre x post E Hx;
    destruct pre as [|p [|q pre]]; simpl in E; try discriminate;
    injection E as <- E; discriminate.
Qed.

Lemma invariant_step (t : tid) (s : state) :
  invariant W R s -> invariant W R (step W R G t s).
Proof.
  intros (C & F & O). split; [|split].
  - apply coherent_step; assumption.
  - apply trace_facts_step; assumption.
  - apply order_facts_step; assumption.
Qed.

Lemma invariant_exec (sched : list tid) :
  forall s, invariant W R s -> invariant W R (exec W R G sched s).
Proof.
  induction sched as [|t sched IH]; intros s H; simpl; [exact H|].
  apply IH, invariant_step, H.
Qed.

Lemma exec_crashed (sched : list tid) :
  forall s e, crashed s = Some e -> exec W R G sched s = s.
Proof.
  induction sched as [|t sched IH]; intros s e H; simpl; [reflexivity|].
  unfold step. rewrite H. apply (IH s e H).
Qed.


End RunnerFacts.

(** Three schedules, for any behaviour of the tasks. *)
Lemma exec_writer_error (W R : Runner.task_result) (G : Drain.late)
  (e : error) :
  fst W = Returned (Some e) ->
  Runner.result (Runner.exec W R G [Runner.WriterTask; Runner.Main; Runner.Main]
                   Runner.started)
    = Returned (Some (xerrors_Errorf "write to pty" e)).
Proof.
  destruct W as [out w]. simpl. intros ->. reflexivity.
Qed.

Lemma exec_fair (W R : Runner.task_result) (G : Drain.late)
  (rErr : option error) :
  fst W = Returned None -> fst R = Returned rErr ->
  Runner.result (Runner.exec W R G Examples.fair Runner.started)
    = Returned (Runner.join None rErr).
Proof.
  destruct W as [wout w], R as [rout r]. simpl. intros -> ->.
  destruct rErr; reflexivity.
Qed.

Lemma exec_writer_panic (W R : Runner.task_result) (G : Drain.late)
  (e : error)
  (sched : list Runner.tid) :
  fst W = Panicked e ->
  Runner.result (Runner.exec W R G (Runner.WriterTask :: sched) Runner.started)
    = Panicked e /\
  existsb Runner.is_writer_done
    (Runner.trace (Runner.exec W R G (Runner.WriterTask :: sched) Runner.started))
    = false.
Proof.
  destruct W as [out w]. simpl. intros ->.
  change (Runner.step (Panicked e, w) R G Runner.WriterTask Runner.started)
    with (Runner.mkState Runner.MRecvW Runner.TStuck Runner.TRun
            (Meter.new None) (Some e) [Runner.EvOpen]).
  rewrite (exec_crashed (Panicked e, w) R G sched
             (Runner.mkState Runner.MRecvW Runner.TStuck Runner.TRun
                (Meter.new None) (Some e) [Runner.EvOpen]) e eq_refl).
  split; reflexivity.
Qed.

Section RunLemmas.
Import Meter Runner.

Variable json_Marshal : Writer.ReconnectingPTYRequest -> list Byte.byte + error.

Lemma Run_started (cfg : Config) (env : Env) (sched : list tid) :
  open_err env = None -> 0 < TicksPerSecond cfg ->
  Run json_Marshal cfg env sched =
  exec (run_writer json_Marshal (bytesPerTick cfg) env)
       (run_reader (bytesPerTick cfg) env)
       (run_late (bytesPerTick cfg) env) sched started.
Proof.
  intros Ho Ht. unfold Run. rewrite Ho.
  destruct (TicksPerSecond cfg =? 0) eqn:E0; [apply Z.eqb_eq in E0; lia|].
  destruct (TicksPerSecond cfg <=? 0) eqn:E1; [apply Z.leb_le in E1; lia|].
  reflexivity.
Qed.

Lemma Run_invariant (cfg : Config) (env : Env) (sched : list tid) :
  open_err env = None -> 0 < TicksPerSecond cfg ->
  invariant (run_writer json_Marshal (bytesPerTick cfg) env)
            (run_reader (bytesPerTick cfg) env)
            (Run json_Marshal cfg env sched).
Proof.
  intros Ho Ht. rewrite Run_started by assumption.
  apply invariant_exec, invariant_started.
Qed.

End RunLemmas.

(** ** The examples *)

Import Meter Writer Drain Runner Examples.

Lemma string_of_list_ascii_length (l : list ascii) :
  String.length (string_of_list_ascii l) = List.length l.
Proof. induction l as [|c l IH]; simpl; [reflexivity|rewrite IH; reflexivity]. Qed.

Lemma letters_length : produces_requested_length letters.
Proof.
  intros n randStr Hn H. unfold letters in H.
  destruct (n <? 0) eqn:E; [discriminate|]. injection H as <-.
  rewrite string_of_list_ascii_length, repeat_length. lia.
Qed.

Lemma list_byte_of_string_length (s : string) :
  List.length (list_byte_of_string s) = String.length s.
Proof.
  unfold list_byte_of_string.
  induction s as [|c s IH]; simpl; [reflexivity|rewrite IH; reflexivity].
Qed.

Lemma string_app_length (s1 s2 : string) :
  String.length (s1 ++ s2) = (String.length s1 + String.length s2)%nat.
Proof. induction s1 as [|c s1 IH]; simpl; [reflexivity|rewrite IH; reflexivity]. Qed.

(** The envelope adds eleven bytes to the data it carries. *)
Lemma plain_Marshal_length (req : ReconnectingPTYRequest)
  (data : list Byte.byte) :
  plain_Marshal req = inl data ->
  Z.of_nat (List.length data) = Z.of_nat (String.length (Data req)) + 11.
Proof.
  unfold plain_Marshal. intros H. injection H as <-.
  rewrite list_byte_of_string_length. cbn [String.length String.append].
  rewrite string_app_length. cbn [String.length]. lia.
Qed.

(** ** The writer on the clock and after the deadline *)

Section ClockFacts.

Variable json_Marshal : ReconnectingPTYRequest -> list Byte.byte + error.

Lemma serves_sized_serves (size : Z) (L : nat) (tick : list sel_ev) :
  Forall (serves_sized json_Marshal size L) tick ->
  Forall (serves json_Marshal size) tick.
Proof.
  intros H. eapply Forall_impl; [|exact H].
  intros [r| |rnd ws]; simpl; auto.
  intros (randStr & data & A & B & _). exists randStr, data. auto.
Qed.

(** With the scope done the writer neither panics nor fails, and returns
    nil at the first [select] that takes [<-ctx.Done()]. *)
Lemma writeRandomData_done_returns (size : Z) (tick : list sel_ev) :
  forall s,
    ctx_Done (ctx (crw s)) = true ->
    Forall (serves json_Marshal size) tick ->
    (forall e, fst (writeRandomData json_Marshal size tick s) <> Panicked e) /\
    (forall err,
       fst (writeRandomData json_Marshal size tick s) <> Returned (Some err)) /\
    (In SelDone tick ->
     fst (writeRandomData json_Marshal size tick s) = Returned None).
Proof.
  induction tick as [|ev tick IH]; intros s Hd Hs.
  - cbn. split; [discriminate|]. split; [discriminate|]. intros [].
  - inversion Hs as [|ev' tick' Hev Hs']; subst.
    destruct ev as [r| |rnd ws].
    + rewrite writeRandomData_cancel.
      destruct (ctx (crw s)) as [r0|] eqn:Hc; [|discriminate Hd].
      cbn [ctx_cancel]. rewrite <- Hc, with_ctx_same.
      replace (mkW (crw s) (answers s) (emitted s)) with s
        by (destruct s; reflexivity).
      destruct (IH s) as (A & B & C); [rewrite Hc; reflexivity|exact Hs'|].
      split; [exact A|]. split; [exact B|].
      intros [I|I]; [discriminate I|auto].
    + rewrite writeRandomData_done, Hd. cbn.
      split; [discriminate|]. split; [discriminate|]. reflexivity.
    + rewrite writeRandomData_tick.
      destruct Hev as (randStr & data & E1 & E2). rewrite E1, E2.
      rewrite copyContext_done by exact Hd. cbn [snd].
      destruct (IH (mkW (crw s) ws (emitted s)) Hd Hs') as (A & B & C).
      split; [exact A|]. split; [exact B|].
      intros [I|I]; [discriminate I|auto].
Qed.

Lemma copyContext_live (src : list Byte.byte) (s : wstate) :
  ctx (crw s) = None ->
  copyContext src s =
  copy_loop src 0 (mkW (crw s) (answers s) (emitted s ++ [src])).
Proof.
  intros Hc. unfold copyContext, bind, ctx_done, emit. rewrite Hc. reflexivity.
Qed.

Lemma copy_loop_accepted (b : Byte.byte) (src : list Byte.byte) (count : Z)
  (s : wstate) (ws : list wr_ev) :
  answers s = WrAnswer 1 None :: ws ->
  ctx (crw s) = None ->
  copy_loop (b :: src) count s =
  copy_loop src (int64_wrap (count + 1))
    (mkW (addWritten 1 (crw s)) ws (emitted s)).
Proof.
  intros Ha Hc. cbn [copy_loop]. unfold bind, dst_Write. rewrite Ha.
  cbn [dst_Write_from]. unfold Write. rewrite Hc. reflexivity.
Qed.

Lemma copy_loop_full (src : list Byte.byte) :
  forall count s,
    written_in_full (List.length src) (answers s) = true ->
    ctx (crw s) = None ->
    0 <= bytesWritten (crw s) ->
    bytesWritten (crw s) + Z.of_nat (List.length src) < 2 ^ 63 ->
    exists count' s',
      copy_loop src count s = (Returned (count', None), s') /\
      ctx (crw s') = None /\
      bytesWritten (crw s')
        = bytesWritten (crw s) + Z.of_nat (List.length src) /\
      emitted s' = emitted s.
Proof.
  induction src as [|b src IH]; intros count s Hf Hc H0 Hfit.
  - exists count, s. cbn [copy_loop List.length].
    split; [reflexivity|]. split; [exact Hc|]. split; [lia|reflexivity].
  - cbn [List.length written_in_full] in Hf.
    destruct (answers s) as [|[r|n [e|]] ws] eqn:Ha; try discriminate Hf.
    apply andb_prop in Hf. destruct Hf as [Hn Hf].
    apply Z.eqb_eq in Hn. subst n.
    rewrite (copy_loop_accepted b src count s ws Ha Hc).
    assert (B1 : bytesWritten (addWritten 1 (crw s)) = bytesWritten (crw s) + 1).
    { cbn [addWritten bytesWritten]. apply int64_wrap_small.
      cbn [List.length] in Hfit. lia. }
    destruct (IH (int64_wrap (count + 1))
                (mkW (addWritten 1 (crw s)) ws (emitted s)))
      as (count' & s' & E & C1 & C2 & C3).
    + exact Hf.
    + cbn [crw addWritten ctx]. exact Hc.
    + cbn [crw]. rewrite B1. lia.
    + cbn [crw]. rewrite B1. cbn [List.length] in Hfit. lia.
    + exists count', s'. split; [exact E|]. split; [exact C1|].
      cbn [crw emitted] in C2, C3. rewrite B1 in C2.
      split; [cbn [List.length]; lia|exact C3].
Qed.

Lemma copy_loop_cut (src : list Byte.byte) :
  forall (j : nat) count s ws2,
    answers s = accepted j ++ WrCancel Deadline :: ws2 ->
    (j < List.length src)%nat ->
    ctx (crw s) = None ->
    0 <= bytesWritten (crw s) ->
    bytesWritten (crw s) + Z.of_nat j < 2 ^ 63 ->
    exists count' s',
      copy_loop src count s = (Returned (count', None), s') /\
      ctx (crw s') = Some Deadline /\
      bytesWritten (crw s') = bytesWritten (crw s) + Z.of_nat j /\
      emitted s' = emitted s.
Proof.
  induction src as [|b src IH]; intros j count s ws2 Ha Hj Hc H0 Hfit.
  - cbn [List.length] in Hj. lia.
  - destruct j as [|j].
    + cbn [accepted repeat app] in Ha.
      cbn [copy_loop]. unfold bind, dst_Write. rewrite Ha.
      cbn [dst_Write_from]. rewrite Hc. cbn [ctx_cancel].
      destruct (dst_Write_from_done ws2 (with_ctx (Some Deadline) (crw s))
                  (emitted s) Deadline eq_refl) as [ws' E].
      rewrite E. cbn.
      exists count, (mkW (with_ctx (Some Deadline) (crw s)) ws' (emitted s)).
      split; [reflexivity|]. split; [reflexivity|].
      split; [cbn; lia|reflexivity].
    + change (accepted (S j)) with (WrAnswer 1 None :: accepted j) in Ha.
      cbn [app] in Ha.
      rewrite (copy_loop_accepted b src count s _ Ha Hc).
      assert (B1 : bytesWritten (addWritten 1 (crw s))
                   = bytesWritten (crw s) + 1).
      { cbn [addWritten bytesWritten]. apply int64_wrap_small. lia. }
      destruct (IH j (int64_wrap (count + 1))
                  (mkW (addWritten 1 (crw s))
                     (accepted j ++ WrCancel Deadline :: ws2) (emitted s)) ws2)
        as (count' & s' & E & C1 & C2 & C3).
      * reflexivity.
      * cbn [List.length] in Hj. lia.
      * cbn [crw addWritten ctx]. exact Hc.
      * cbn [crw]. rewrite B1. lia.
      * cbn [crw]. rewrite B1. lia.
      * exists count', s'. split; [exact E|]. split; [exact C1|].
        cbn [crw emitted] in C2, C3. rewrite B1 in C2.
        split; [lia|exact C3].
Qed.

Lemma cut_short_shape (L : nat) :
  forall ws,
    cut_short L ws = true ->
    exists j ws2,
      ws = accepted j ++ WrCancel Deadline :: ws2 /\ (j < L)%nat.
Proof.
  induction L as [|L IH]; intros ws H.
  - destruct ws as [|[[|]|n [e|]] ws']; discriminate H.
  - destruct ws as [|[[|]|n [e|]] ws']; cbn [cut_short] in H;
      try discriminate H.
    + exists 0%nat, ws'. split; [reflexivity|lia].
    + apply andb_prop in H. destruct H as [Hn H].
      apply Z.eqb_eq in Hn. subst n.
      destruct (IH ws' H) as (j & ws2 & -> & Hj).
      exists (S j), ws2. split; [reflexivity|lia].
Qed.

(** The payload of a tick that the deadline cuts short, and the writer
    after it. *)
Lemma writeRandomData_cut (size : Z) (rnd : Z -> string + error)
  (randStr : string) (data : list Byte.byte) (j : nat) (ws2 : list wr_ev)
  (tick : list sel_ev) (s : wstate) :
  ctx (crw s) = None ->
  rnd (int64_wrap (size - 1)) = inl randStr ->
  json_Marshal (mkRequest (String "#" randStr)) = inl data ->
  (j < List.length data)%nat ->
  0 <= bytesWritten (crw s) ->
  bytesWritten (crw s) + Z.of_nat j < 2 ^ 63 ->
  Forall (serves json_Marshal size) tick ->
  let r := writeRandomData json_Marshal size
             (SelTick rnd (accepted j ++ WrCancel Deadline :: ws2) :: tick) s in
  bytesWritten (crw (snd r)) = bytesWritten (crw s) + Z.of_nat j /\
  (forall e, fst r <> Panicked e) /\
  (forall err, fst r <> Returned (Some err)) /\
  (In SelDone tick -> fst r = Returned None).
Proof.
  intros Hc E1 E2 Hj H0 Hfit Hs r. subst r.
  rewrite writeRandomData_tick, E1, E2.
  rewrite copyContext_live by exact Hc. cbn [crw answers emitted].
  destruct (copy_loop_cut data j 0
              (mkW (crw s) (accepted j ++ WrCancel Deadline :: ws2)
                 (emitted s ++ [data])) ws2 eq_refl Hj Hc H0 Hfit)
    as (count' & s2 & E & C1 & C2 & _).
  cbn [crw answers emitted] in E. rewrite E. cbn [snd].
  assert (Hd : ctx_Done (ctx (crw s2)) = true) by (rewrite C1; reflexivity).
  destruct (writeRandomData_when_done json_Marshal size tick s2 Hd) as [B _].
  destruct (writeRandomData_done_returns size tick s2 Hd Hs) as (P & Q & R).
  rewrite B. cbn [crw] in C2. split; [exact C2|]. split; [exact P|].
  split; [exact Q|exact R].
Qed.

Lemma clock_run (size T D : Z) (L : nat) (tick : list sel_ev) :
  0 < T ->
  Z.of_nat L * (D / T) < 2 ^ 63 ->
  forall k s,
    1 <= k -> (k - 1) * T <= D ->
    on_the_clock T D L k tick = true ->
    Forall (serves_sized json_Marshal size L) tick ->
    ctx (crw s) = None ->
    bytesWritten (crw s) = Z.of_nat L * (k - 1) ->
    let r := writeRandomData json_Marshal size tick s in
    Z.of_nat L * (D / T - 1) <= bytesWritten (crw (snd r))
      <= Z.of_nat L * (D / T) /\
    (forall e, fst r <> Panicked e) /\
    (forall err, fst r <> Returned (Some err)) /\
    (In SelDone tick -> fst r = Returned None).
Proof.
  intros HT Hfit.
  induction tick as [|ev tick IH]; intros k s Hk Hprev Hclk Hs Hc Hbw r;
    subst r; cbn [on_the_clock] in Hclk; [discriminate Hclk|].
  inversion Hs as [|ev' tick' Hev Hs']; subst.
  assert (Lo : k - 1 <= D / T)
    by (apply Z.div_le_lower_bound; [exact HT|lia]).
  destruct ev as [r| |rnd ws].
  - destruct r; [|discriminate Hclk]. apply Z.leb_le in Hclk.
    assert (Hi : D / T <= k)
      by (apply Z.div_le_upper_bound; [exact HT|lia]).
    rewrite writeRandomData_cancel.
    set (s1 := mkW (with_ctx (ctx_cancel Deadline (ctx (crw s))) (crw s))
                 (answers s) (emitted s)).
    assert (Hd : ctx_Done (ctx (crw s1)) = true)
      by (subst s1; cbn; rewrite Hc; reflexivity).
    destruct (writeRandomData_when_done json_Marshal size tick s1 Hd) as [B _].
    destruct (writeRandomData_done_returns size tick s1 Hd
                (serves_sized_serves size L tick Hs')) as (P & Q & R).
    rewrite B. subst s1. cbn [crw with_ctx bytesWritten]. rewrite Hbw.
    split; [nia|]. split; [exact P|]. split; [exact Q|].
    intros [I|I]; [discriminate I|auto].
  - discriminate Hclk.
  - apply andb_prop in Hclk. destruct Hclk as [Hfire Hclk].
    apply Z.leb_le in Hfire.
    assert (Hk' : k <= D / T)
      by (apply Z.div_le_lower_bound; [exact HT|lia]).
    destruct Hev as (randStr & data & E1 & E2 & Elen).
    destruct (written_in_full L ws) eqn:Hfull.
    + rewrite writeRandomData_tick, E1, E2.
      rewrite copyContext_live by exact Hc. cbn [crw answers emitted].
      destruct (copy_loop_full data 0
                  (mkW (crw s) ws (emitted s ++ [data])))
        as (count' & s2 & E & C1 & C2 & _).
      * rewrite Elen. exact Hfull.
      * exact Hc.
      * cbn [crw]. rewrite Hbw. nia.
      * cbn [crw]. rewrite Hbw, Elen. nia.
      * cbn [crw answers emitted] in E. rewrite E. cbn [snd].
        cbn [crw] in C2. rewrite Elen, Hbw in C2.
        destruct (IH (k + 1) s2) as (A1 & A2 & A3 & A4);
          try assumption; try lia.
        split; [exact A1|]. split; [exact A2|]. split; [exact A3|].
        intros [I|I]; [discriminate I|auto].
    + apply andb_prop in Hclk. destruct Hclk as [Hcut Hnext].
      apply Z.ltb_lt in Hnext.
      assert (Hi : D / T < k + 1)
        by (apply Z.div_lt_upper_bound; [exact HT|lia]).
      destruct (cut_short_shape L ws Hcut) as (j & ws2 & -> & Hj).
      destruct (writeRandomData_cut size rnd randStr data j ws2 tick s
                  Hc E1 E2) as (B & P & Q & R).
      * rewrite Elen. exact Hj.
      * rewrite Hbw. nia.
      * rewrite Hbw. nia.
      * exact (serves_sized_serves size L tick Hs').
      * rewrite B, Hbw. split; [nia|]. split; [exact P|]. split; [exact Q|].
        intros [I|I]; [discriminate I|auto].
Qed.

End ClockFacts.

(** Every tick of a concrete script is served. *)
Ltac serve_all :=
  repeat (apply Forall_cons;
          [first [exact I | eexists; eexists; repeat split; reflexivity]|]);
  apply Forall_nil.

(** * The claims *)

(** C1 (the code departs from the claim).  The claim: when a run ends only
    because the shared deadline expires and the stream never fails, [Run]
    returns nil.  In the environment [env_expired] the only thing that
    happens to the scope is its deadline and the stream never fails; the
    writer returns nil, but the reading goroutine's [Read] fails fast on the
    meter with the deadline error, the coordinating [select] of
    [drainContext] takes it from [errCh], and [Run] reports a read failure.
    When the same [select] takes [<-ctx.Done()] instead ([env_expired_clean])
    the run succeeds. *)
Theorem expired_deadline_read_error :
  deadline_only (writer_script env_expired) = true /\
  forallb (fun ev => match ev with
                     | DrCancel CallerCancel | DrRead _ (Some _) => false
                     | _ => true
                     end) (reader_script env_expired) = true /\
  fst (run_writer plain_Marshal (bytesPerTick cfg_1000) env_expired)
    = Returned None /\
  fst (run_reader (bytesPerTick cfg_1000) env_expired)
    = Returned (Some context_DeadlineExceeded) /\
  result (Run plain_Marshal cfg_1000 env_expired fair)
    = Returned (Some (xerrors_Errorf "read from pty" context_DeadlineExceeded)) /\
  result (Run plain_Marshal cfg_1000 env_expired_clean fair) = Returned None.
Proof. vm_compute. repeat split. Qed.

(** C2.  For every history of [Read] and [Write] calls on a fresh
    [countReadWriter] (any interleaving of the reader's and the writer's
    calls and of the scope being cancelled) that keeps to the [io] contract
    and whose sums fit the 64-bit counters: at the end of the history, and
    at every point before it, [BytesRead] is the sum of the counts returned
    by the [Read] calls that returned a nil error and [BytesWritten] the same
    sum over the [Write] calls; and the counters never go down from one
    point to a later one. *)
Theorem countReadWriter_counts_exact (c : context) (h : list op) :
  io_contract h = true ->
  returned_ok Rd h (new c) < 2 ^ 63 ->
  returned_ok Wr h (new c) < 2 ^ 63 ->
  BytesRead (run h (new c)) = returned_ok Rd h (new c) /\
  BytesWritten (run h (new c)) = returned_ok Wr h (new c) /\
  (forall h1 h2, h = h1 ++ h2 ->
     BytesRead (run h1 (new c)) = returned_ok Rd h1 (new c) /\
     BytesWritten (run h1 (new c)) = returned_ok Wr h1 (new c) /\
     BytesRead (run h1 (new c)) <= BytesRead (run h (new c)) /\
     BytesWritten (run h1 (new c)) <= BytesWritten (run h (new c))).
Proof.
  intros Hc Hr Hw.
  assert (Full : BytesRead (run h (new c)) = returned_ok Rd h (new c) /\
                 BytesWritten (run h (new c)) = returned_ok Wr h (new c)).
  { destruct (run_adds h Hc (new c)) as [A B]; simpl; try lia.
    unfold BytesRead, BytesWritten. simpl in A, B. split; lia. }
  destruct Full as [FR FW]. split; [exact FR|]. split; [exact FW|].
  intros h1 h2 ->.
  rewrite io_contract_app in Hc. apply andb_prop in Hc. destruct Hc as [H1 H2].
  rewrite returned_ok_app in Hr, Hw, FR, FW.
  pose proof (returned_ok_nonneg Rd h2 H2 (run h1 (new c))) as N2r.
  pose proof (returned_ok_nonneg Wr h2 H2 (run h1 (new c))) as N2w.
  destruct (run_adds h1 H1 (new c)) as [A B]; simpl; try lia.
  unfold BytesRead, BytesWritten in *. simpl in A, B. lia.
Qed.

Lemma countReadWriter_counts_exact_witness :
  io_contract sample_history = true /\
  returned_ok Rd sample_history (new None) < 2 ^ 63 /\
  returned_ok Wr sample_history (new None) < 2 ^ 63 /\
  BytesRead (run sample_history (new None)) = 2 /\
  BytesWritten (run sample_history (new None)) = 2.
Proof.
  assert (Hc : io_contract sample_history = true) by reflexivity.
  assert (Hr : returned_ok Rd sample_history (new None) < 2 ^ 63)
    by (vm_compute; reflexivity).
  assert (Hw : returned_ok Wr sample_history (new None) < 2 ^ 63)
    by (vm_compute; reflexivity).
  destruct (countReadWriter_counts_exact None sample_history Hc Hr Hw)
    as (A & B & _).
  repeat split; assumption.
Defined.

(** C3.  Given [bytesPerTick >= 1] (an [int64], so below 2^63) and a
    random source that answers a request for [n >= 0] bytes with a string of
    [n] bytes, every payload the writer emits is the serialization of a
    request whose data begins with the character # and has length exactly
    [bytesPerTick]: the marker and [bytesPerTick - 1] random bytes. *)
Theorem payload_shape
  (json_Marshal : ReconnectingPTYRequest -> list Byte.byte + error)
  (size : Z) (tick : list sel_ev) (w : countReadWriter) :
  1 <= size < 2 ^ 63 ->
  generator_ok tick ->
  Forall (fun data =>
            exists req,
              json_Marshal req = inl data /\
              (exists rest, Data req = String "#" rest) /\
              Z.of_nat (String.length (Data req)) = size)
    (emitted (snd (writeRandomData json_Marshal size tick (start w)))).
Proof.
  intros Hsize Hg.
  apply (writeRandomData_emits_ok json_Marshal size tick Hsize Hg (start w)).
  constructor.
Qed.

Lemma payload_shape_witness :
  1 <= 3 < 2 ^ 63 /\
  generator_ok two_ticks_cut /\
  Forall (fun data =>
            exists req,
              plain_Marshal req = inl data /\
              (exists rest, Data req = String "#" rest) /\
              Z.of_nat (String.length (Data req)) = 3)
    (emitted (snd (writeRandomData plain_Marshal 3 two_ticks_cut
                     (start (new None))))).
Proof.
  assert (H1 : 1 <= 3 < 2 ^ 63) by (split; [discriminate|reflexivity]).
  assert (H2 : generator_ok two_ticks_cut)
    by (repeat constructor; apply letters_length).
  split; [exact H1|]. split; [exact H2|].
  exact (payload_shape plain_Marshal 3 two_ticks_cut (new None) H1 H2).
Defined.

(** C4.  Once the tasks are started, [Run] receives the writer's result
    before the reader's; what it returns is the writer's error wrapped as
    "write to pty", else the reader's wrapped as "read from pty", else nil;
    so when both tasks fail only the writer's error surfaces.  And [Run]
    does return: as soon as the writer came back with an error, and when
    both tasks came back otherwise. *)
Theorem Run_joins_writer_first
  (json_Marshal : ReconnectingPTYRequest -> list Byte.byte + error)
  (cfg : Config) (env : Env) (sched : list tid) :
  open_err env = None ->
  0 < TicksPerSecond cfg ->
  let W := run_writer json_Marshal (bytesPerTick cfg) env in
  let R := run_reader (bytesPerTick cfg) env in
  let s := Run json_Marshal cfg env sched in
  preceded_by is_recvW is_recvR (trace s) /\
  (forall res, result s = Returned res ->
     exists wErr, fst W = Returned wErr /\
       match wErr with
       | Some e => res = Some (xerrors_Errorf "write to pty" e)
       | None =>
           exists rErr, fst R = Returned rErr /\
             res = match rErr with
                   | Some e => Some (xerrors_Errorf "read from pty" e)
                   | None => None
                   end
       end) /\
  (forall e, fst W = Returned (Some e) ->
     result (Run json_Marshal cfg env [WriterTask; Main; Main])
       = Returned (Some (xerrors_Errorf "write to pty" e))) /\
  (forall rErr, fst W = Returned None -> fst R = Returned rErr ->
     result (Run json_Marshal cfg env fair) = Returned (join None rErr)).
Proof.
  intros Ho Ht W R s.
  destruct (Run_invariant json_Marshal cfg env sched Ho Ht) as (C & F & O).
  fold W R s in C, F, O.
  split; [apply O|]. split; [|split].
  - intros res Hres. unfold result in Hres.
    destruct (crashed s); [discriminate|].
    unfold coherent in C.
    destruct (mpc s) as [| | | |r|r]; try discriminate.
    injection Hres as ->. destruct C as (_ & C).
    destruct (fst W) as [[e|]| |]; try contradiction.
    + exists (Some e). split; [reflexivity|]. apply C.
    + exists None. split; [reflexivity|]. destruct C as (_ & C).
      destruct (fst R) as [rErr| |]; try contradiction.
      exists rErr. split; [reflexivity|exact C].
  - intros e HW. rewrite Run_started by assumption.
    apply exec_writer_error. exact HW.
  - intros rErr HW HR. rewrite Run_started by assumption.
    apply exec_fair; assumption.
Qed.

Lemma Run_joins_writer_first_witness :
  open_err env_broken_pipe = None /\
  0 < TicksPerSecond cfg_1000 /\
  result (Run plain_Marshal cfg_1000 env_broken_pipe [WriterTask; Main; Main])
    = Returned (Some (xerrors_Errorf "write to pty" (errors_New "broken pipe"))).
Proof.
  assert (Ho : open_err env_broken_pipe = None) by reflexivity.
  assert (Ht : 0 < TicksPerSecond cfg_1000) by reflexivity.
  split; [exact Ho|]. split; [exact Ht|].
  destruct (Run_joins_writer_first plain_Marshal cfg_1000 env_broken_pipe []
              Ho Ht) as (_ & _ & H & _).
  apply H. vm_compute. reflexivity.
Defined.








(** C7, as amended.  Take a run with a ticker of period [T] and a deadline
    at [D] in which the writer keeps pace with the ticker (it takes every
    tick fired before the deadline and none is dropped), the stream takes
    every byte at once, and the random source and the serializer do not
    fail; let [L] be the length of each serialized payload, which is the
    length of the JSON envelope around the [bytesPerTick] data bytes, not
    [bytesPerTick].  Then the total of [BytesWritten] is within one
    serialized payload of [L * floor(D / T)]: it lies between
    [L * (floor(D / T) - 1)] and [L * floor(D / T)].  The deadline may cut
    the last payload short, and that is no error: the writer neither fails
    nor panics, and it returns nil when its [select] takes
    [<-ctx.Done()]. *)
Theorem rate_bound_serialized
  (json_Marshal : ReconnectingPTYRequest -> list Byte.byte + error)
  (size T D : Z) (L : nat) (tick : list sel_ev) :
  0 < T -> 0 <= D ->
  on_the_clock T D L 1 tick = true ->
  Forall (serves_sized json_Marshal size L) tick ->
  Z.of_nat L * (D / T) < 2 ^ 63 ->
  let run := writeRandomData json_Marshal size tick (start (new None)) in
  Z.of_nat L * (D / T - 1) <= BytesWritten (crw (snd run))
    <= Z.of_nat L * (D / T) /\
  (forall err, fst run <> Returned (Some err)) /\
  (forall e, fst run <> Panicked e) /\
  (In SelDone tick -> fst run = Returned None).
Proof.
  intros HT HD Hclk Hs Hfit run.
  assert (H0 : bytesWritten (crw (start (new None))) = Z.of_nat L * (1 - 1))
    by (cbn; lia).
  pose proof (clock_run json_Marshal size T D L tick HT Hfit 1
                (start (new None)) ltac:(lia) ltac:(lia) Hclk Hs eq_refl H0)
    as H.
  cbv zeta in H. fold run in H. destruct H as (A & B & C & E).
  unfold BytesWritten.
  split; [exact A|]. split; [exact C|]. split; [exact B|exact E].
Qed.

Lemma rate_bound_serialized_witness :
  0 < 100 /\ 0 <= 250 /\
  on_the_clock 100 250 14 1 two_ticks_cut = true /\
  Forall (serves_sized plain_Marshal 3 14) two_ticks_cut /\
  250 / 100 = 2 /\
  14 * (2 - 1)
    <= BytesWritten (crw (snd (writeRandomData plain_Marshal 3 two_ticks_cut
                                 (start (new None)))))
    <= 14 * 2 /\
  fst (writeRandomData plain_Marshal 3 two_ticks_cut (start (new None)))
    = Returned None.
Proof.
  assert (HT : 0 < 100) by reflexivity.
  assert (HD : 0 <= 250) by discriminate.
  assert (Hclk : on_the_clock 100 250 14 1 two_ticks_cut = true) by reflexivity.
  assert (Hs : Forall (serves_sized plain_Marshal 3 14) two_ticks_cut)
    by serve_all.
  assert (Hfit : Z.of_nat 14 * (250 / 100) < 2 ^ 63) by reflexivity.
  split; [exact HT|]. split; [exact HD|]. split; [exact Hclk|].
  split; [exact Hs|]. split; [reflexivity|].
  destruct (rate_bound_serialized plain_Marshal 3 100 250 14 two_ticks_cut
              HT HD Hclk Hs Hfit) as (A & _ & _ & R).
  split; [exact A|]. apply R. right. right. left. reflexivity.
Defined.

(** C7, the claim as stated fails: ten ticks of [bytesPerTick] = 10, one
    every 100 ms of a run of one second, all taken on time and all written
    in full, put 210 bytes on the stream, not 100 give or take 10: each
    payload goes out inside its JSON envelope, 21 bytes long. *)
Lemma rate_bound_counterexample :
  on_the_clock 100000000 1000000000 21 1 ten_ticks = true /\
  1000000000 / 100000000 = 10 /\
  paced ten_ticks = true /\
  ticks ten_ticks = 10 /\
  fst (writeRandomData plain_Marshal 10 ten_ticks (start (new None)))
    = Returned None /\
  BytesWritten (crw (snd (writeRandomData plain_Marshal 10 ten_ticks
                            (start (new None))))) = 210 /\
  ~ (10 * 10 - 10
       <= BytesWritten (crw (snd (writeRandomData plain_Marshal 10 ten_ticks
                                    (start (new None)))))
       <= 10 * 10 + 10).
Proof.
  assert (E : BytesWritten (crw (snd (writeRandomData plain_Marshal 10
                ten_ticks (start (new None))))) = 210)
    by (vm_compute; reflexivity).
  rewrite E. repeat split; try (vm_compute; reflexivity). lia.
Qed.

(** C8, as amended.  [Run] does not validate the configuration.  For every
    configuration with a non-zero [TicksPerSecond], also one whose
    [BytesPerSecond] is less and makes [bytesPerTick] 0, the first thing
    [Run] does is to invoke the session-open collaborator; with
    [TicksPerSecond] = 0 the division panics before any connection
    attempt. *)
Theorem Run_opens_without_validation
  (json_Marshal : ReconnectingPTYRequest -> list Byte.byte + error)
  (cfg : Config) (env : Env) (sched : list tid) :
  (TicksPerSecond cfg <> 0 ->
     hd_error (trace (Run json_Marshal cfg env sched)) = Some EvOpen) /\
  (TicksPerSecond cfg = 0 ->
     trace (Run json_Marshal cfg env sched) = [] /\
     result (Run json_Marshal cfg env sched)
       = Panicked (errors_New "integer divide by zero")).
Proof.
  split.
  - intros Ht. unfold Run.
    destruct (TicksPerSecond cfg =? 0) eqn:E0; [apply Z.eqb_eq in E0; lia|].
    destruct (open_err env) as [err|] eqn:Ho; [reflexivity|].
    destruct (TicksPerSecond cfg <=? 0) eqn:E1; [reflexivity|].
    apply Z.leb_gt in E1.
    destruct (invariant_exec (run_writer json_Marshal (bytesPerTick cfg) env)
                (run_reader (bytesPerTick cfg) env)
                (run_late (bytesPerTick cfg) env) sched started
                (invariant_started _ _)) as (_ & F & _).
    apply F.
  - intros Ht. unfold Run. rewrite Ht. split; reflexivity.
Qed.

Lemma Run_opens_without_validation_witness :
  TicksPerSecond cfg_slow <> 0 /\
  BytesPerSecond cfg_slow < TicksPerSecond cfg_slow /\
  bytesPerTick cfg_slow = 0 /\
  hd_error (trace (Run plain_Marshal cfg_slow env_first_tick fair))
    = Some EvOpen.
Proof.
  assert (Ht : TicksPerSecond cfg_slow <> 0) by discriminate.
  split; [exact Ht|]. split; [reflexivity|]. split; [reflexivity|].
  exact (proj1 (Run_opens_without_validation plain_Marshal cfg_slow
                  env_first_tick fair) Ht).
Defined.

(** C8, the claim as stated fails: with one byte and two ticks a second
    [bytesPerTick] is 0, and [Run] opens the session all the same; when the
    deadline passes before the first tick it even returns nil. *)
Lemma zero_bytesPerTick_counterexample :
  BytesPerSecond cfg_slow < TicksPerSecond cfg_slow /\
  bytesPerTick cfg_slow = 0 /\
  In EvOpen (trace (Run plain_Marshal cfg_slow env_expired_clean fair)) /\
  result (Run plain_Marshal cfg_slow env_expired_clean fair) = Returned None.
Proof. vm_compute. repeat split. left. reflexivity. Qed.

(** C9, as amended.  In every execution of [Run] in which the tasks were
    started: the writer task's termination precedes every invocation of
    close; when the writer reported no error, the reader task's termination
    precedes every close as well; the reader task closes only after [Run]
    received its result; and when both tasks reported no error, the reads of
    [BytesWritten] and [BytesRead] for the results precede the deferred close
    in [Run]. *)
Theorem close_follows_tasks
  (json_Marshal : ReconnectingPTYRequest -> list Byte.byte + error)
  (cfg : Config) (env : Env) (sched : list tid) :
  open_err env = None ->
  0 < TicksPerSecond cfg ->
  let W := run_writer json_Marshal (bytesPerTick cfg) env in
  let R := run_reader (bytesPerTick cfg) env in
  let s := Run json_Marshal cfg env sched in
  preceded_by is_writer_done is_close (trace s) /\
  (fst W = Returned None -> preceded_by is_reader_done is_close (trace s)) /\
  preceded_by is_recvR (is_close_by ByReader) (trace s) /\
  (fst W = Returned None -> fst R = Returned None ->
   preceded_by is_read_sent (is_close_by ByDefer) (trace s) /\
   preceded_by is_read_rcvd (is_close_by ByDefer) (trace s)).
Proof.
  intros Ho Ht W R s.
  destruct (Run_invariant json_Marshal cfg env sched Ho Ht)
    as (_ & _ & O1 & O2 & O3 & O4 & O5).
  repeat split; auto; apply O5; assumption.
Qed.

Lemma close_follows_tasks_witness :
  open_err env_echo = None /\
  0 < TicksPerSecond cfg_1000 /\
  preceded_by is_writer_done is_close
    (trace (Run plain_Marshal cfg_1000 env_echo reader_closes_first)) /\
  preceded_by is_reader_done is_close
    (trace (Run plain_Marshal cfg_1000 env_echo reader_closes_first)).
Proof.
  assert (Ho : open_err env_echo = None) by reflexivity.
  assert (Ht : 0 < TicksPerSecond cfg_1000) by reflexivity.
  split; [exact Ho|]. split; [exact Ht|].
  destruct (close_follows_tasks plain_Marshal cfg_1000 env_echo
              reader_closes_first Ho Ht) as (A & B & _).
  split; [exact A|]. apply B. vm_compute. reflexivity.
Defined.

(** C9, the claim as stated fails.  On normal completion under the schedule
    [fair] the counters are read for the results before any close was
    invoked; and when the writer fails ([env_broken_pipe]) [Run] closes the
    stream although the reader task has not terminated. *)
Lemma close_before_reads_counterexample :
  result (Run plain_Marshal cfg_1000 env_echo fair) = Returned None /\
  ~ preceded_by is_close is_read_sent
      (trace (Run plain_Marshal cfg_1000 env_echo fair)) /\
  ~ preceded_by is_close is_read_rcvd
      (trace (Run plain_Marshal cfg_1000 env_echo fair)) /\
  result (Run plain_Marshal cfg_1000 env_broken_pipe fair)
    = Returned (Some (xerrors_Errorf "write to pty" (errors_New "broken pipe"))) /\
  ~ preceded_by is_reader_done is_close
      (trace (Run plain_Marshal cfg_1000 env_broken_pipe fair)).
Proof.
  assert (T1 : trace (Run plain_Marshal cfg_1000 env_echo fair) =
               [EvOpen; EvWriterDone None; EvReaderDone None; EvRecvW; EvRecvR]
               ++ EvBytesWritten 111
               :: [EvBytesRead 1; EvClose ByDefer; EvReturn None;
                   EvClose ByReader])
    by (vm_compute; reflexivity).
  assert (T1' : trace (Run plain_Marshal cfg_1000 env_echo fair) =
               [EvOpen; EvWriterDone None; EvReaderDone None; EvRecvW; EvRecvR;
                EvBytesWritten 111]
               ++ EvBytesRead 1
               :: [EvClose ByDefer; EvReturn None; EvClose ByReader])
    by (vm_compute; reflexivity).
  assert (T2 : trace (Run plain_Marshal cfg_1000 env_broken_pipe fair) =
               [EvOpen; EvWriterDone (Some (errors_New "broken pipe")); EvRecvW]
               ++ EvClose ByDefer
               :: [EvReturn (Some (xerrors_Errorf "write to pty"
                                     (errors_New "broken pipe")))])
    by (vm_compute; reflexivity).
  split; [vm_compute; reflexivity|].
  split; [intros H; specialize (H _ _ _ T1 eq_refl); discriminate H|].
  split; [intros H; specialize (H _ _ _ T1' eq_refl); discriminate H|].
  split; [vm_compute; reflexivity|].
  intros H. specialize (H _ _ _ T2 eq_refl). discriminate H.
Qed.

(** C10.  If the random source fails for the requested length, which is
    [size - 1] computed in [int64] (with [bytesPerTick] = 0 the request is
    for -1 bytes), [mustRandStr] panics
    and so does [writeRandomData]: no error is returned.  In [Run] the panic
    of the writer task takes the process down: no result of the writer is
    ever sent or received, and [Run] never returns. *)
Theorem random_failure_panics
  (json_Marshal : ReconnectingPTYRequest -> list Byte.byte + error)
  (size : Z) (rnd : Z -> string + error) (ws : list wr_ev)
  (tick : list sel_ev) (s : wstate) (err : error) :
  rnd (int64_wrap (size - 1)) = inr err ->
  mustRandStr rnd (int64_wrap (size - 1)) s = (Panicked err, s) /\
  writeRandomData json_Marshal size (SelTick rnd ws :: tick) s
    = (Panicked err, s) /\
  (forall cfg env sched,
     open_err env = None -> 0 < TicksPerSecond cfg ->
     fst (run_writer json_Marshal (bytesPerTick cfg) env) = Panicked err ->
     result (Run json_Marshal cfg env (WriterTask :: sched)) = Panicked err /\
     existsb is_writer_done
       (trace (Run json_Marshal cfg env (WriterTask :: sched))) = false /\
     (forall res, result (Run json_Marshal cfg env sched) <> Returned res)).
Proof.
  intros Hr. split; [|split].
  - unfold mustRandStr. rewrite Hr. reflexivity.
  - rewrite writeRandomData_tick, Hr. reflexivity.
  - intros cfg env sched Ho Ht HW.
    rewrite (Run_started json_Marshal cfg env (WriterTask :: sched) Ho Ht).
    destruct (exec_writer_panic _ (run_reader (bytesPerTick cfg) env)
                (run_late (bytesPerTick cfg) env) err sched HW)
      as [A B].
    split; [exact A|]. split; [exact B|].
    intros res Hres.
    destruct (Run_invariant json_Marshal cfg env sched Ho Ht) as (C & _).
    unfold result in Hres.
    destruct (crashed (Run json_Marshal cfg env sched)); [discriminate|].
    unfold coherent in C.
    destruct (mpc (Run json_Marshal cfg env sched)); try discriminate.
    rewrite HW in C. destruct C as (_ & C). exact C.
Qed.

Lemma random_failure_panics_witness :
  letters (int64_wrap (0 - 1)) = inr (errors_New "negative length") /\
  bytesPerTick cfg_slow = 0 /\
  writeRandomData plain_Marshal 0 (SelTick letters [] :: []) (start (new None))
    = (Panicked (errors_New "negative length"), start (new None)) /\
  result (Run plain_Marshal cfg_slow env_first_tick fair)
    = Panicked (errors_New "negative length").
Proof.
  assert (Hr : letters (int64_wrap (0 - 1)) = inr (errors_New "negative length"))
    by reflexivity.
  split; [exact Hr|]. split; [reflexivity|].
  destruct (random_failure_panics plain_Marshal 0 letters [] []
              (start (new None)) (errors_New "negative length") Hr)
    as (_ & B & C).
  split; [exact B|].
  apply (C cfg_slow env_first_tick
           [ReaderTask; Main; Main; Main; Main; Main; ReaderTask; WriterTask]).
  - reflexivity.
  - reflexivity.
  - vm_compute. reflexivity.
Defined.

(** * Further properties of the code *)


(** ** xerrors.Is *)

Lemma xerrors_Is_refl (e : error) : xerrors_Is e e = true.
Proof.
  assert (H : error_eqb e e = true)
    by (unfold error_eqb; destruct (error_eq_dec e e); congruence).
  destruct e; cbn [xerrors_Is]; rewrite H; reflexivity.
Qed.

Lemma xerrors_Is_wrap (msg : string) (e target : error) :
  xerrors_Is e target = true -> xerrors_Is (xerrors_Errorf msg e) target = true.
Proof. intros H. simpl. rewrite H. apply orb_true_r. Qed.

Lemma xerrors_Is_wrap_EOF (msg : string) (e : error) :
  xerrors_Is (xerrors_Errorf msg e) io_EOF = xerrors_Is e io_EOF.
Proof. reflexivity. Qed.

(** ** The meter *)

Section MeterMore.
Import Meter.

Lemma run_only_Rd (h : list op) :
  forall w w',
    ctx w = ctx w' -> bytesRead w = bytesRead w' ->
    bytesRead (run h w) = bytesRead (run (only Rd h) w').
Proof.
  induction h as [|o h IH]; intros w w' E B; simpl; [exact B|].
  destruct o as [r|n err|n err]; simpl.
  - apply IH; simpl; [rewrite E; reflexivity|exact B].
  - unfold Read. rewrite E.
    destruct (ctx_Err (ctx w')); [apply IH; assumption|].
    destruct err; simpl; apply IH; simpl; try assumption. rewrite B. reflexivity.
  - unfold Write.
    destruct (ctx_Err (ctx w)); [apply IH; assumption|].
    destruct err; simpl; apply IH; simpl; assumption.
Qed.

Lemma run_only_Wr (h : list op) :
  forall w w',
    ctx w = ctx w' -> bytesWritten w = bytesWritten w' ->
    bytesWritten (run h w) = bytesWritten (run (only Wr h) w').
Proof.
  induction h as [|o h IH]; intros w w' E B; simpl; [exact B|].
  destruct o as [r|n err|n err]; simpl.
  - apply IH; simpl; [rewrite E; reflexivity|exact B].
  - unfold Read.
    destruct (ctx_Err (ctx w)); [apply IH; assumption|].
    destruct err; simpl; apply IH; simpl; assumption.
  - unfold Write. rewrite E.
    destruct (ctx_Err (ctx w')); [apply IH; assumption|].
    destruct err; simpl; apply IH; simpl; try assumption. rewrite B. reflexivity.
Qed.

End MeterMore.

Import Meter Writer Drain Runner Examples.

(** X1.  Once the scope is done, every [Read] and [Write] on the meter
    fails fast with the scope's error and a count of 0, whatever the stream
    would answer, and no later history changes either counter or the
    reason. *)
Theorem meter_frozen_once_done (h : list op) (w : countReadWriter) (r : reason) :
  ctx w = Some r ->
  (forall under, Read under w = ((0, ctx_Err (Some r)), w)) /\
  (forall under, Write under w = ((0, ctx_Err (Some r)), w)) /\
  run h w = w /\
  returned_ok Rd h w = 0 /\
  returned_ok Wr h w = 0.
Proof.
  intros Hc.
  assert (HR : forall under, Read under w = ((0, ctx_Err (Some r)), w))
    by (intros under; unfold Read; rewrite Hc; destruct r; reflexivity).
  assert (HW : forall under, Write under w = ((0, ctx_Err (Some r)), w))
    by (intros under; unfold Write; rewrite Hc; destruct r; reflexivity).
  split; [exact HR|]. split; [exact HW|].
  assert (Hstep : forall o, snd (run_op o w) = w).
  { intros [r'|n err|n err]; simpl.
    - rewrite Hc. simpl. rewrite <- Hc. destruct w; reflexivity.
    - rewrite HR. reflexivity.
    - rewrite HW. reflexivity. }
  induction h as [|o h IH]; simpl; [auto|].
  rewrite Hstep. destruct IH as (A & B & C).
  split; [exact A|].
  destruct o as [r'|n err|n err]; simpl.
  - rewrite Hc. simpl. rewrite <- Hc.
    replace (with_ctx (ctx w) w) with w by (destruct w; reflexivity). auto.
  - rewrite HR. destruct r; simpl; auto.
  - rewrite HW. destruct r; simpl; auto.
Qed.

Lemma meter_frozen_once_done_witness :
  ctx (mkCRW (Some Deadline) 7 9) = Some Deadline /\
  run sample_history (mkCRW (Some Deadline) 7 9) = mkCRW (Some Deadline) 7 9.
Proof.
  assert (Hc : ctx (mkCRW (Some Deadline) 7 9) = Some Deadline) by reflexivity.
  split; [exact Hc|].
  exact (proj1 (proj2 (proj2
    (meter_frozen_once_done sample_history (mkCRW (Some Deadline) 7 9)
       Deadline Hc)))).
Defined.

(** X2.  The two counters do not interfere: dropping all [Write] calls from
    a history leaves [BytesRead] as it was, and dropping all [Read] calls
    leaves [BytesWritten] as it was. *)
Theorem counters_independent (h : list op) (w : countReadWriter) :
  BytesRead (run h w) = BytesRead (run (only Rd h) w) /\
  BytesWritten (run h w) = BytesWritten (run (only Wr h) w).
Proof.
  split.
  - apply run_only_Rd; reflexivity.
  - apply run_only_Wr; reflexivity.
Qed.

(** ** The drain reader *)

Section DrainMore.

Variable maxAlloc : Z.


Lemma read_errors_cons (ev : dr_ev) (evs : list dr_ev) (e : error) :
  In e (read_errors evs) -> In e (read_errors (ev :: evs)).
Proof.
  intros H. destruct ev as [r|[|] [err|]| |]; simpl; auto.
Qed.

Lemma cancellations_cons (ev : dr_ev) (evs : list dr_ev) (r : reason) :
  In r (cancellations evs) -> In r (cancellations (ev :: evs)).
Proof. intros H. destruct ev; simpl; auto. Qed.

(** Where an error that the drain returns comes from. *)
Lemma drain_loop_error (bufSize : Z) (evs : list dr_ev) :
  forall inn w e,
    fst (drain_loop maxAlloc bufSize evs inn w) = Returned (Some e) ->
    xerrors_Is e io_EOF = false /\
    (inn = Sending e \/
     In e (read_errors evs) \/
     exists r, (Meter.ctx w = Some r \/ In r (cancellations evs)) /\
               ctx_Err (Some r) = Some e).
Proof.
  induction evs as [|ev evs IH]; intros inn w e H; [discriminate H|].
  destruct ev as [r|byte err| |]; cbn [drain_loop] in H.
  - destruct (IH _ _ _ H) as (A & [B|[B|(r0 & B & C)]]); split; auto.
    right. right. exists r0. split; [|exact C].
    simpl in B. destruct B as [B|B]; [|right; right; exact B].
    destruct (Meter.ctx w) as [c|]; simpl in B.
    + left. exact B.
    + right. left. congruence.
  - destruct (make_fails maxAlloc bufSize); [discriminate H|].
    destruct inn as [|e0].
    + unfold Meter.Read in H.
      destruct (Meter.ctx w) as [c|] eqn:Ec; cbn [ctx_Err] in H.
      * (* the meter fails fast *)
        assert (H' : fst (drain_loop maxAlloc bufSize evs
                            (Sending match c with
                                     | Deadline => context_DeadlineExceeded
                                     | CallerCancel => context_Canceled
                                     end) w) = Returned (Some e))
          by (destruct c; exact H).
        destruct (IH _ _ _ H') as (A & [B|[B|(r0 & B & C)]]); split; auto.
        -- right. right. exists c. split; [left; reflexivity|].
           injection B as <-. destruct c; reflexivity.
        -- right. left. apply read_errors_cons. exact B.
        -- right. right. exists r0. split; [|exact C].
           destruct B as [B|B]; [left; congruence|].
           right. apply cancellations_cons. exact B.
      * destruct err as [e1|]; destruct byte; simpl in H;
          destruct (IH _ _ _ H) as (A & [B|[B|(r0 & B & C)]]); split; auto;
          try discriminate B;
          try (right; left; apply read_errors_cons; exact B);
          try (right; right; exists r0; split; [|exact C];
               simpl in B; destruct B as [B|B];
               [left; congruence|right; apply cancellations_cons; exact B]).
        right. left. injection B as <-. simpl. left. reflexivity.
    + destruct (IH _ _ _ H) as (A & [B|[B|(r0 & B & C)]]); split; auto.
      * right. left. apply read_errors_cons. exact B.
      * right. right. exists r0. split; [|exact C].
        destruct B as [B|B]; [left; exact B|].
        right. apply cancellations_cons. exact B.
  - destruct (ctx_Done (Meter.ctx w)); discriminate H.
  - destruct inn as [|e0]; [discriminate H|].
    destruct (xerrors_Is e0 io_EOF) eqn:E; [discriminate H|].
    injection H as <-. auto.
Qed.

(** What lets the drain return nil. *)
Lemma drain_loop_nil (bufSize : Z) (evs : list dr_ev) :
  forall inn w,
    fst (drain_loop maxAlloc bufSize evs inn w) = Returned None ->
    ctx_Done (Meter.ctx (snd (drain_loop maxAlloc bufSize evs inn w))) = true \/
    exists e, xerrors_Is e io_EOF = true /\
              (inn = Sending e \/ In e (read_errors evs)).
Proof.
  induction evs as [|ev evs IH]; intros inn w H; [discriminate H|].
  destruct ev as [r|byte err| |]; cbn [drain_loop] in H |- *.
  - destruct (IH _ _ H) as [A|(e & A & [B|B])]; [left; exact A| |];
      right; exists e; auto.
  - destruct (make_fails maxAlloc bufSize); [discriminate H|].
    destruct inn as [|e0].
    + destruct (Meter.Read (if byte then 1 else 0, err) w) as [res w'] eqn:ER.
      destruct (IH _ _ H) as [A|(e & A & [B|B])]; [left; exact A| |].
      * right. exists e. split; [exact A|]. right.
        unfold Meter.Read in ER.
        destruct (Meter.ctx w) as [c|]; cbn [ctx_Err] in ER.
        -- destruct c; injection ER as <- <-; unfold CopyN_after in B;
             simpl in B; injection B as <-; discriminate A.
        -- destruct err as [e1|]; destruct byte; injection ER as <- <-;
             unfold CopyN_after in B; simpl in B; try discriminate B.
           injection B as <-. simpl. left. reflexivity.
      * right. exists e. split; [exact A|]. right.
        apply read_errors_cons. exact B.
    + destruct (IH _ _ H) as [A|(e & A & [B|B])]; [left; exact A| |];
        right; exists e; split; auto.
      right. apply read_errors_cons. exact B.
  - destruct (ctx_Done (Meter.ctx w)) eqn:E; [|discriminate H].
    left. exact E.
  - destruct inn as [|e0]; [discriminate H|].
    destruct (xerrors_Is e0 io_EOF) eqn:E; [|discriminate H].
    right. exists e0. auto.
Qed.




End DrainMore.

(** X3.  [drainContext] never reports the end of the stream as an error,
    and it invents none: an error it returns is one with which the stream
    failed a read, or the error of the scope (already done when the drain
    started, or cancelled during it), and [xerrors.Is(err, io.EOF)] does not
    hold of it.  It returns nil only when the scope is done or a read
    failed with an error that is [io.EOF]. *)
Theorem drainContext_result_origin
  (maxAlloc bufSize : Z) (evs : list dr_ev) (w : countReadWriter) :
  (forall e,
     fst (drainContext maxAlloc bufSize evs w) = Returned (Some e) ->
     xerrors_Is e io_EOF = false /\
     (In e (read_errors evs) \/
      exists r, (ctx w = Some r \/ In r (cancellations evs)) /\
                ctx_Err (Some r) = Some e)) /\
  (fst (drainContext maxAlloc bufSize evs w) = Returned None ->
   ctx_Done (ctx (snd (drainContext maxAlloc bufSize evs w))) = true \/
   exists e, In e (read_errors evs) /\ xerrors_Is e io_EOF = true).
Proof.
  unfold drainContext. split.
  - intros e H.
    destruct (drain_loop_error maxAlloc bufSize evs Reading w e H)
      as (A & [B|B]); [discriminate B|]. split; assumption.
  - intros H.
    destruct (drain_loop_nil maxAlloc bufSize evs Reading w H)
      as [A|(e & A & [B|B])]; [left; exact A|discriminate B|].
    right. exists e. split; assumption.
Qed.

Lemma drainContext_result_origin_witness :
  fst (drainContext linux_amd64 200 reset_stream (new None))
    = Returned (Some (errors_New "connection reset")) /\
  In (errors_New "connection reset") (read_errors reset_stream) /\
  fst (drainContext linux_amd64 200 ended_stream (new None)) = Returned None /\
  exists e, In e (read_errors ended_stream) /\ xerrors_Is e io_EOF = true.
Proof.
  assert (H1 : fst (drainContext linux_amd64 200 reset_stream (new None))
               = Returned (Some (errors_New "connection reset")))
    by (vm_compute; reflexivity).
  assert (H2 : fst (drainContext linux_amd64 200 ended_stream (new None))
               = Returned None)
    by (vm_compute; reflexivity).
  destruct (drainContext_result_origin linux_amd64 200 reset_stream (new None))
    as [A _].
  destruct (drainContext_result_origin linux_amd64 200 ended_stream (new None))
    as [_ B].
  split; [exact H1|]. split.
  - destruct (A _ H1) as (_ & [I|(r & [C|C] & _)]);
      [exact I|discriminate C|contradiction C].
  - split; [exact H2|].
    destruct (B H2) as [D|D]; [discriminate D|exact D].
Defined.





(** ** The writer *)

Section WriterMore.

Lemma dst_Write_from_bytesRead (ws : list wr_ev) :
  forall w em,
    bytesRead (crw (snd (dst_Write_from ws w em))) = bytesRead w.
Proof.
  induction ws as [|[r|n err] ws IH]; intros w em; simpl.
  - destruct (ctx_Err (ctx w)); reflexivity.
  - rewrite IH. reflexivity.
  - unfold Write. destruct (ctx_Err (ctx w)); [reflexivity|].
    destruct err; reflexivity.
Qed.

Lemma copy_loop_bytesRead (src : list Byte.byte) :
  forall count s,
    bytesRead (crw (snd (copy_loop src count s))) = bytesRead (crw s).
Proof.
  induction src as [|b src IH]; intros count s; [reflexivity|].
  cbn [copy_loop]. unfold bind, dst_Write.
  pose proof (dst_Write_from_bytesRead (answers s) (crw s) (emitted s)) as E.
  destruct (dst_Write_from (answers s) (crw s) (emitted s)) as [[res| |] s1];
    cbn [snd] in *; try exact E.
  destruct (snd res) as [err|].
  - destruct (xerrors_Is err io_EOF); [exact E|].
    destruct (xerrors_Is err context_DeadlineExceeded); exact E.
  - rewrite IH. exact E.
Qed.

Lemma copyContext_bytesRead (src : list Byte.byte) (s : wstate) :
  bytesRead (crw (snd (copyContext src s))) = bytesRead (crw s).
Proof.
  unfold copyContext, bind, ctx_done, emit. cbn [fst snd].
  destruct (ctx_Done (ctx (crw s))); [reflexivity|].
  rewrite copy_loop_bytesRead. reflexivity.
Qed.

(** An error that the byte loop returns is neither an end of stream nor a
    deadline error. *)
Lemma copy_loop_error (src : list Byte.byte) :
  forall count s c e,
    fst (copy_loop src count s) = Returned (c, Some e) ->
    xerrors_Is e io_EOF = false /\
    xerrors_Is e context_DeadlineExceeded = false.
Proof.
  induction src as [|b src IH]; intros count s c e H; [discriminate H|].
  cbn [copy_loop] in H. unfold bind, dst_Write in H.
  destruct (dst_Write_from (answers s) (crw s) (emitted s)) as [[res| |] s1];
    try discriminate H.
  destruct (snd res) as [err|].
  - destruct (xerrors_Is err io_EOF) eqn:E1; [discriminate H|].
    destruct (xerrors_Is err context_DeadlineExceeded) eqn:E2;
      [discriminate H|].
    injection H as _ <-. auto.
  - apply (IH _ _ _ _ H).
Qed.

Lemma copyContext_error (src : list Byte.byte) (s : wstate) (c : Z) (e : error) :
  fst (copyContext src s) = Returned (c, Some e) ->
  xerrors_Is e io_EOF = false /\
  xerrors_Is e context_DeadlineExceeded = false.
Proof.
  unfold copyContext, bind, ctx_done, emit. cbn [fst snd].
  destruct (ctx_Done (ctx (crw s))); [discriminate|].
  apply copy_loop_error.
Qed.

End WriterMore.

(** X6.  [writeRandomData] never touches the read counter of the meter it
    writes through. *)
Theorem writeRandomData_leaves_bytesRead
  (json_Marshal : ReconnectingPTYRequest -> list Byte.byte + error)
  (size : Z) (tick : list sel_ev) (s : wstate) :
  bytesRead (crw (snd (writeRandomData json_Marshal size tick s)))
    = bytesRead (crw s).
Proof.
  revert s. induction tick as [|ev tick IH]; intros s; [reflexivity|].
  destruct ev as [r| |rnd ws].
  - rewrite writeRandomData_cancel, IH. reflexivity.
  - rewrite writeRandomData_done.
    destruct (ctx_Done (ctx (crw s))); reflexivity.
  - rewrite writeRandomData_tick.
    destruct (rnd (int64_wrap (size - 1))) as [randStr|err]; [|reflexivity].
    destruct (json_Marshal (mkRequest (String "#" randStr))) as [data|err];
      [|reflexivity].
    pose proof (copyContext_bytesRead data (mkW (crw s) ws (emitted s))) as E.
    destruct (copyContext data (mkW (crw s) ws (emitted s)))
      as [[res| |] s2]; cbn [snd crw] in *; try exact E.
    destruct (snd res); [exact E|]. rewrite IH. exact E.
Qed.

(** X7.  [writeRandomData] returns nil only when the scope is done: an end
    of stream or a deadline error on a write ends the payload, not the
    writer, which goes on to the next tick.  And an error it returns is the
    one [json.Marshal] gave, or a write error that is neither [io.EOF] nor a
    deadline error. *)
Theorem writeRandomData_return_values
  (json_Marshal : ReconnectingPTYRequest -> list Byte.byte + error)
  (size : Z) (tick : list sel_ev) (s : wstate) :
  (fst (writeRandomData json_Marshal size tick s) = Returned None ->
   ctx_Done (ctx (crw (snd (writeRandomData json_Marshal size tick s))))
     = true) /\
  (forall e,
     fst (writeRandomData json_Marshal size tick s) = Returned (Some e) ->
     (exists req, json_Marshal req = inr e) \/
     (xerrors_Is e io_EOF = false /\
      xerrors_Is e context_DeadlineExceeded = false)).
Proof.
  revert s. induction tick as [|ev tick IH]; intros s.
  - split; [intros H; discriminate H|intros ? H; discriminate H].
  - destruct ev as [r| |rnd ws].
    + rewrite writeRandomData_cancel. apply IH.
    + rewrite writeRandomData_done.
      destruct (ctx_Done (ctx (crw s))) eqn:E; split;
        try (intros H; discriminate H); try (intros ? H; discriminate H).
      intros _. exact E.
    + rewrite writeRandomData_tick.
      destruct (rnd (int64_wrap (size - 1))) as [randStr|err];
        [|split; [intros H; discriminate H|intros ? H; discriminate H]].
      destruct (json_Marshal (mkRequest (String "#" randStr))) as [data|err] eqn:EM.
      2:{ split; [intros H; discriminate H|].
          intros e H. injection H as <-. left. eauto. }
      pose proof (copyContext_error data (mkW (crw s) ws (emitted s))) as CE.
      destruct (copyContext data (mkW (crw s) ws (emitted s)))
        as [[[c oe]| |] s2];
        try (split; [intros H; discriminate H|intros ? H; discriminate H]).
      cbn [snd]. destruct oe as [e1|].
      * split; [intros H; discriminate H|].
        intros e H. injection H as <-. right. apply (CE c e1 eq_refl).
      * apply IH.
Qed.

Lemma writeRandomData_return_values_witness :
  fst (writeRandomData plain_Marshal 3 two_ticks_cut (start (new None)))
    = Returned None /\
  ctx_Done (ctx (crw (snd (writeRandomData plain_Marshal 3 two_ticks_cut
                             (start (new None)))))) = true.
Proof.
  assert (H : fst (writeRandomData plain_Marshal 3 two_ticks_cut
                     (start (new None))) = Returned None)
    by (vm_compute; reflexivity).
  split; [exact H|].
  exact (proj1 (writeRandomData_return_values plain_Marshal 3 two_ticks_cut
                  (start (new None))) H).
Defined.

(** ** The runner *)

Section ValueFacts.

Variables W R : task_result.
Variable G : late.

Lemma values_started : values_facts W R G started.
Proof.
  unfold values_facts, started. simpl.
  repeat split; intros; try discriminate;
    match goal with H : _ \/ False |- _ => destruct H as [H|[]]; discriminate H end.
Qed.

Lemma In_snoc {A} (x y : A) (l : list A) :
  In x (l ++ [y]) -> In x l \/ x = y.
Proof.
  intros H. apply in_app_or in H. destruct H as [H|[H|[]]]; auto.
Qed.

Ltac by_In_snoc :=
  repeat split; auto; intros x Hx; apply In_snoc in Hx;
  destruct Hx as [Hx|Hx]; try discriminate Hx; auto.

Lemma values_step (t : tid) (s : state) :
  coherent W R s -> values_facts W R G s ->
  values_facts W R G (step W R G t s).
Proof.
  destruct s as [m w r mt cr tr].
  unfold step, coherent, values_facts, read_count,
    step_main, step_writer, step_reader, step_late, log.
  simpl.
  destruct cr; [tauto|].
  intros C (V1 & V2 & V3 & V4 & V5 & V6).
  destruct t.
  - (* Run itself *)
    destruct m; simpl in *.
    + destruct w as [| |e| |]; simpl; try solve [intuition].
      by_In_snoc.
    + destruct r as [| |e| |]; simpl; try solve [intuition].
      by_In_snoc.
    + destruct C as (_ & _ & Cw & _).
      by_In_snoc.
      injection Hx as ->. apply V1. destruct w; simpl in *; tauto.
    + destruct C as (_ & _ & _ & Cr).
      by_In_snoc.
      injection Hx as ->. apply V2. destruct r; simpl in *; tauto.
    + repeat split; auto; intros x Hx; apply In_snoc in Hx;
        destruct Hx as [Hx|Hx]; try discriminate Hx;
        apply In_snoc in Hx; destruct Hx as [Hx|Hx]; try discriminate Hx; auto.
    + intuition.
  - (* the writer task *)
    destruct w; simpl; try solve [intuition].
    destruct (fst W) as [wErr| |] eqn:EW; simpl; try solve [intuition].
    by_In_snoc.
    injection Hx as ->. reflexivity.
  - (* the reader task *)
    destruct r; simpl; try solve [intuition].
    + destruct (fst R) as [rErr| |] eqn:ER; simpl; try solve [intuition].
      by_In_snoc.
      injection Hx as ->. reflexivity.
    + by_In_snoc.
  - (* the goroutine left behind *)
    destruct r; try solve [intuition]; destruct G; simpl;
      solve [intuition].
Qed.

Lemma values_exec (sched : list tid) :
  forall s,
    invariant W R s -> values_facts W R G s ->
    values_facts W R G (exec W R G sched s).
Proof.
  induction sched as [|t sched IH]; intros s I V; simpl; [exact V|].
  apply IH; [apply invariant_step; exact I|].
  apply values_step; [apply I|exact V].
Qed.



End ValueFacts.

Lemma existsb_read_sent (tr : list event) :
  existsb is_read_sent tr = true -> exists n, In (EvBytesWritten n) tr.
Proof.
  intros H. apply existsb_exists in H. destruct H as (x & Hin & Hx).
  destruct x; try discriminate Hx. eauto.
Qed.

Lemma existsb_read_rcvd (tr : list event) :
  existsb is_read_rcvd tr = true -> exists n, In (EvBytesRead n) tr.
Proof.
  intros H. apply existsb_exists in H. destruct H as (x & Hin & Hx).
  destruct x; try discriminate Hx. eauto.
Qed.

(** X8.  Once the tasks are started: when [Run] returns nil it has reported
    as sent the value of [bytesWritten] as [writeRandomData] left it, and a
    value as rcvd.  The value reported as rcvd is [bytesRead] as
    [drainContext] left it, or one more: [drainContext] does not wait for
    its reading goroutine, and a [Read] that was in flight when the scope
    ended may still add its byte before [Run] loads the counter.  No other
    values are ever reported; and when [Run] returns an error it has
    reported no results at all. *)
Theorem Run_reports_task_counters
  (json_Marshal : ReconnectingPTYRequest -> list Byte.byte + error)
  (cfg : Config) (env : Env) (sched : list tid) :
  open_err env = None ->
  0 < TicksPerSecond cfg ->
  let sent :=
    bytesWritten (crw (snd (writeRandomData json_Marshal (bytesPerTick cfg)
                              (writer_script env) (start (new None))))) in
  let rcvd :=
    bytesRead (snd (drainContext (maxAlloc env)
                      (int64_wrap (bytesPerTick cfg * 2))
                      (reader_script env) (new None))) in
  let left_behind :=
    drain_late (maxAlloc env) (int64_wrap (bytesPerTick cfg * 2))
      (reader_script env) (new None) in
  let s := Run json_Marshal cfg env sched in
  (result s = Returned None ->
   In (EvBytesWritten sent) (trace s) /\
   exists n, In (EvBytesRead n) (trace s)) /\
  (forall n, In (EvBytesWritten n) (trace s) -> n = sent) /\
  (forall n, In (EvBytesRead n) (trace s) ->
     n = rcvd \/ (left_behind = LateByte /\ n = int64_wrap (rcvd + 1))) /\
  (forall err, result s = Returned (Some err) ->
     existsb is_read_sent (trace s) = false /\
     existsb is_read_rcvd (trace s) = false).
Proof.
  intros Ho Ht sent rcvd left_behind s.
  pose proof (Run_invariant json_Marshal cfg env sched Ho Ht) as I.
  assert (V : values_facts (run_writer json_Marshal (bytesPerTick cfg) env)
                (run_reader (bytesPerTick cfg) env)
                (run_late (bytesPerTick cfg) env) s).
  { subst s. rewrite Run_started by assumption.
    apply values_exec; [apply invariant_started|apply values_started]. }
  fold s in I. destruct I as (C & F & _).
  destruct V as (_ & _ & V3 & V4 & _).
  assert (ES : bytesWritten (snd (run_writer json_Marshal (bytesPerTick cfg) env))
               = sent).
  { unfold run_writer, sent.
    destruct (writeRandomData json_Marshal (bytesPerTick cfg)
                (writer_script env) (start (new None))); reflexivity. }
  rewrite ES in V3.
  destruct F as (_ & _ & _ & _ & _ & F5 & F6 & _).
  split; [|split; [exact V3|split; [exact V4|]]].
  - intros Hres. unfold result in Hres.
    destruct (crashed s); [discriminate|].
    destruct (mpc s) as [| | | |res|res]; try discriminate.
    injection Hres as ->. simpl in F5, F6.
    destruct (existsb_read_sent _ F5) as [n Hn].
    rewrite (V3 n Hn) in Hn. split; [exact Hn|].
    apply existsb_read_rcvd. exact F6.
  - intros err Hres. unfold result in Hres.
    destruct (crashed s); [discriminate|].
    destruct (mpc s) as [| | | |res|res]; try discriminate.
    injection Hres as ->. simpl in F5, F6. split; assumption.
Qed.

Lemma Run_reports_task_counters_witness :
  open_err env_late_byte = None /\
  0 < TicksPerSecond cfg_1000 /\
  result (Run plain_Marshal cfg_1000 env_late_byte late_byte_first)
    = Returned None /\
  bytesRead (snd (drainContext (maxAlloc env_late_byte)
                    (int64_wrap (bytesPerTick cfg_1000 * 2))
                    (reader_script env_late_byte) (new None))) = 1 /\
  In (EvBytesRead 2)
    (trace (Run plain_Marshal cfg_1000 env_late_byte late_byte_first)) /\
  In (EvBytesRead 1) (trace (Run plain_Marshal cfg_1000 env_late_byte fair)) /\
  In (EvBytesWritten 0)
    (trace (Run plain_Marshal cfg_1000 env_late_byte late_byte_first)).
Proof.
  assert (Ho : open_err env_late_byte = None) by reflexivity.
  assert (Ht : 0 < TicksPerSecond cfg_1000) by reflexivity.
  assert (Hr : result (Run plain_Marshal cfg_1000 env_late_byte late_byte_first)
               = Returned None)
    by (vm_compute; reflexivity).
  split; [exact Ho|]. split; [exact Ht|]. split; [exact Hr|].
  split; [vm_compute; reflexivity|].
  split; [vm_compute; tauto|]. split; [vm_compute; tauto|].
  destruct (Run_reports_task_counters plain_Marshal cfg_1000 env_late_byte
              late_byte_first Ho Ht) as (A & _).
  destruct (A Hr) as [B _].
  replace 0 with
    (bytesWritten (crw (snd (writeRandomData plain_Marshal
       (bytesPerTick cfg_1000) (writer_script env_late_byte)
       (start (new None))))))
    by (vm_compute; reflexivity).
  exact B.
Defined.

(** X9.  Every error that [Run] returns names the step that failed and
    wraps its cause, so that [xerrors.Is] finds the cause: the error of the
    session-open collaborator ("connect to workspace", and then neither task
    was started nor anything closed), else the writer's error ("write to
    pty"), else the reader's ("read from pty").  A read failure that [Run]
    reports is never the end of the stream. *)
Theorem Run_error_causes
  (json_Marshal : ReconnectingPTYRequest -> list Byte.byte + error)
  (cfg : Config) (env : Env) (sched : list tid) (err : error) :
  0 < TicksPerSecond cfg ->
  result (Run json_Marshal cfg env sched) = Returned (Some err) ->
  let W := run_writer json_Marshal (bytesPerTick cfg) env in
  let R := run_reader (bytesPerTick cfg) env in
  exists cause,
    xerrors_Is err cause = true /\
    ((open_err env = Some cause /\
      err = xerrors_Errorf "connect to workspace" cause /\
      trace (Run json_Marshal cfg env sched) = [EvOpen; EvReturn (Some err)]) \/
     (open_err env = None /\ fst W = Returned (Some cause) /\
      err = xerrors_Errorf "write to pty" cause) \/
     (open_err env = None /\ fst W = Returned None /\
      fst R = Returned (Some cause) /\
      err = xerrors_Errorf "read from pty" cause /\
      xerrors_Is err io_EOF = false)).
Proof.
  intros Ht Hres W R.
  destruct (open_err env) as [oe|] eqn:Ho.
  - exists oe. unfold Run in Hres |- *. rewrite Ho in Hres |- *.
    destruct (TicksPerSecond cfg =? 0) eqn:E0; [apply Z.eqb_eq in E0; lia|].
    cbn in Hres. injection Hres as <-.
    split; [apply xerrors_Is_wrap, xerrors_Is_refl|]. left. auto.
  - destruct (Run_invariant json_Marshal cfg env sched Ho Ht) as (C & _).
    fold W R in C. unfold result in Hres.
    destruct (crashed (Run json_Marshal cfg env sched)); [discriminate|].
    unfold coherent in C.
    destruct (mpc (Run json_Marshal cfg env sched)) as [| | | |res|res];
      try discriminate.
    injection Hres as ->. destruct C as (_ & C).
    destruct (fst W) as [[we|]| |] eqn:EW; try contradiction.
    + destruct C as (_ & C). simpl in C. injection C as ->.
      exists we. split; [apply xerrors_Is_wrap, xerrors_Is_refl|].
      right. left. auto.
    + destruct C as (_ & C).
      destruct (fst R) as [[re|]| |] eqn:ER; try contradiction;
        simpl in C; [|discriminate C].
      injection C as ->.
      exists re. split; [apply xerrors_Is_wrap, xerrors_Is_refl|].
      right. right. repeat split; auto.
      rewrite xerrors_Is_wrap_EOF.
      apply (drain_loop_error (maxAlloc env)
               (int64_wrap (bytesPerTick cfg * 2))
               (reader_script env) Reading (new None) re ER).
Qed.

Lemma Run_error_causes_witness :
  0 < TicksPerSecond cfg_1000 /\
  result (Run plain_Marshal cfg_1000 env_reset fair)
    = Returned (Some (xerrors_Errorf "read from pty"
                        (errors_New "connection reset"))) /\
  result (Run plain_Marshal cfg_1000 env_refused fair)
    = Returned (Some (xerrors_Errorf "connect to workspace"
                        (errors_New "connection refused"))) /\
  exists cause,
    xerrors_Is (xerrors_Errorf "read from pty" (errors_New "connection reset"))
      cause = true.
Proof.
  assert (Ht : 0 < TicksPerSecond cfg_1000) by reflexivity.
  assert (Hr : result (Run plain_Marshal cfg_1000 env_reset fair)
               = Returned (Some (xerrors_Errorf "read from pty"
                                   (errors_New "connection reset"))))
    by (vm_compute; reflexivity).
  split; [exact Ht|]. split; [exact Hr|].
  split; [vm_compute; reflexivity|].
  destruct (Run_error_causes plain_Marshal cfg_1000 env_reset fair _ Ht Hr)
    as (cause & A & _).
  exists cause. exact A.
Defined.

(** ** Configuration arithmetic and what never happens *)

Lemma bytesPerTick_quot (cfg : Config) :
  0 < TicksPerSecond cfg ->
  0 <= BytesPerSecond cfg < 2 ^ 63 ->
  bytesPerTick cfg = BytesPerSecond cfg / TicksPerSecond cfg /\
  0 <= BytesPerSecond cfg / TicksPerSecond cfg <= BytesPerSecond cfg.
Proof.
  intros Ht Hb. unfold bytesPerTick.
  rewrite Z.quot_div_nonneg by lia.
  assert (Q : 0 <= BytesPerSecond cfg / TicksPerSecond cfg <= BytesPerSecond cfg).
  { split; [apply Z.div_pos; lia|].
    apply Z.div_le_upper_bound; [lia|]. nia. }
  split; [apply int64_wrap_small; lia|exact Q].
Qed.

(** X10.  For a positive tick rate and a byte rate that is not negative,
    [bytesPerTick] is the byte rate divided by the tick rate and rounded
    down: the bytes of all ticks of a second never exceed the configured
    rate and fall short of it by less than one byte per tick; it is 0
    exactly when the byte rate is below the tick rate. *)
Theorem bytesPerTick_rounds_down (cfg : Config) :
  0 < TicksPerSecond cfg ->
  0 <= BytesPerSecond cfg < 2 ^ 63 ->
  0 <= bytesPerTick cfg /\
  bytesPerTick cfg * TicksPerSecond cfg <= BytesPerSecond cfg /\
  BytesPerSecond cfg < (bytesPerTick cfg + 1) * TicksPerSecond cfg /\
  (bytesPerTick cfg = 0 <-> BytesPerSecond cfg < TicksPerSecond cfg).
Proof.
  intros Ht Hb. destruct (bytesPerTick_quot cfg Ht Hb) as [E Q]. rewrite E.
  pose proof (Z.mul_div_le (BytesPerSecond cfg) (TicksPerSecond cfg) Ht) as L.
  pose proof (Z.mul_succ_div_gt (BytesPerSecond cfg) (TicksPerSecond cfg) Ht) as G.
  split; [lia|]. split; [lia|]. split; [lia|].
  split.
  - intros Z0. rewrite Z0 in G. lia.
  - intros Hlt. apply Z.div_small. lia.
Qed.

Lemma bytesPerTick_rounds_down_witness :
  0 < TicksPerSecond (mkConfig 1005 10 1) /\
  0 <= BytesPerSecond (mkConfig 1005 10 1) < 2 ^ 63 /\
  bytesPerTick (mkConfig 1005 10 1) * 10 <= 1005 /\
  1005 < (bytesPerTick (mkConfig 1005 10 1) + 1) * 10.
Proof.
  assert (Ht : 0 < TicksPerSecond (mkConfig 1005 10 1)) by reflexivity.
  assert (Hb : 0 <= BytesPerSecond (mkConfig 1005 10 1) < 2 ^ 63)
    by (split; [discriminate|reflexivity]).
  split; [exact Ht|]. split; [exact Hb|].
  destruct (bytesPerTick_rounds_down (mkConfig 1005 10 1) Ht Hb)
    as (_ & A & B & _).
  split; [exact A|exact B].
Defined.





Section PanicFacts.

Lemma dst_Write_from_no_panic (ws : list wr_ev) :
  forall w em e, fst (dst_Write_from ws w em) <> Panicked e.
Proof.
  induction ws as [|[r|n err] ws IH]; intros w em e; simpl.
  - destruct (ctx_Err (ctx w)); discriminate.
  - apply IH.
  - destruct (Write (n, err) w). discriminate.
Qed.

Lemma copy_loop_no_panic (src : list Byte.byte) :
  forall count s e, fst (copy_loop src count s) <> Panicked e.
Proof.
  induction src as [|b src IH]; intros count s e; [discriminate|].
  cbn [copy_loop]. unfold bind, dst_Write.
  pose proof (dst_Write_from_no_panic (answers s) (crw s) (emitted s)) as P.
  destruct (dst_Write_from (answers s) (crw s) (emitted s)) as [[res| |] s1].
  - destruct (snd res) as [err|]; [|apply IH].
    destruct (xerrors_Is err io_EOF); [discriminate|].
    destruct (xerrors_Is err context_DeadlineExceeded); discriminate.
  - exfalso. apply (P e0). reflexivity.
  - discriminate.
Qed.

Lemma copyContext_no_panic (src : list Byte.byte) (s : wstate) (e : error) :
  fst (copyContext src s) <> Panicked e.
Proof.
  unfold copyContext, bind, ctx_done, emit. cbn [fst snd].
  destruct (ctx_Done (ctx (crw s))); [discriminate|].
  apply copy_loop_no_panic.
Qed.

End PanicFacts.

(** X12.  The only panic of [writeRandomData] is the one of [mustRandStr]:
    if the writer panics, then on one of the ticks it served the random
    source failed with that very error on the length it was asked for,
    [size - 1] computed in [int64]. *)
Theorem writer_panics_only_in_mustRandStr
  (json_Marshal : ReconnectingPTYRequest -> list Byte.byte + error)
  (size : Z) (tick : list sel_ev) (s : wstate) (e : error) :
  fst (writeRandomData json_Marshal size tick s) = Panicked e ->
  exists rnd ws, In (SelTick rnd ws) tick /\ rnd (int64_wrap (size - 1)) = inr e.
Proof.
  revert s. induction tick as [|ev tick IH]; intros s H; [discriminate H|].
  destruct ev as [r| |rnd ws].
  - rewrite writeRandomData_cancel in H.
    destruct (IH _ H) as (rnd & ws & I & E). exists rnd, ws. split; [right|]; auto.
  - rewrite writeRandomData_done in H.
    destruct (ctx_Done (ctx (crw s))); discriminate H.
  - rewrite writeRandomData_tick in H.
    destruct (rnd (int64_wrap (size - 1))) as [randStr|err] eqn:Ernd.
    + destruct (json_Marshal (mkRequest (String "#" randStr))) as [data|err];
        [|discriminate H].
      pose proof (copyContext_no_panic data (mkW (crw s) ws (emitted s))) as P.
      destruct (copyContext data (mkW (crw s) ws (emitted s)))
        as [[res| |] s2].
      * destruct (snd res); [discriminate H|].
        destruct (IH _ H) as (rnd' & ws' & I & E).
        exists rnd', ws'. split; [right|]; auto.
      * exfalso. apply (P e0). reflexivity.
      * discriminate H.
    + injection H as <-. exists rnd, ws. split; [left; reflexivity|exact Ernd].
Qed.

Lemma writer_panics_only_in_mustRandStr_witness :
  fst (writeRandomData plain_Marshal 0 [SelTick letters []] (start (new None)))
    = Panicked (errors_New "negative length") /\
  exists rnd ws,
    In (SelTick rnd ws) [SelTick letters []] /\
    rnd (int64_wrap (0 - 1)) = inr (errors_New "negative length").
Proof.
  assert (H : fst (writeRandomData plain_Marshal 0 [SelTick letters []]
                     (start (new None)))
              = Panicked (errors_New "negative length")) by reflexivity.
  split; [exact H|].
  exact (writer_panics_only_in_mustRandStr plain_Marshal 0
           [SelTick letters []] (start (new None)) _ H).
Defined.

(** X13.  Once the scope is done, [writeRandomData] returns nil as soon as
    its [select] takes [<-ctx.Done()], however many ticks it takes before
    (on those it writes nothing), provided the random source, asked for
    [size - 1] bytes computed in [int64], and [json.Marshal] do not fail on
    them. *)
Theorem writer_returns_after_cancellation
  (json_Marshal : ReconnectingPTYRequest -> list Byte.byte + error)
  (size : Z) (tick : list sel_ev) (s : wstate) :
  ctx_Done (ctx (crw s)) = true ->
  In SelDone tick ->
  (forall rnd ws, In (SelTick rnd ws) tick ->
     exists randStr data,
       rnd (int64_wrap (size - 1)) = inl randStr /\
       json_Marshal (mkRequest (String "#" randStr)) = inl data) ->
  fst (writeRandomData json_Marshal size tick s) = Returned None /\
  bytesWritten (crw (snd (writeRandomData json_Marshal size tick s)))
    = bytesWritten (crw s).
Proof.
  revert s. induction tick as [|ev tick IH]; intros s Hd Hin Hok;
    [contradiction Hin|].
  destruct ev as [r| |rnd ws].
  - rewrite writeRandomData_cancel.
    destruct Hin as [Hin|Hin]; [discriminate Hin|].
    destruct (ctx (crw s)) as [r0|] eqn:Hc; [|discriminate Hd].
    cbn [ctx_cancel]. rewrite <- Hc, with_ctx_same.
    replace (mkW (crw s) (answers s) (emitted s)) with s
      by (destruct s; reflexivity).
    apply IH; [rewrite Hc; reflexivity|exact Hin|].
    intros rnd ws I. apply (Hok rnd ws). right. exact I.
  - rewrite writeRandomData_done, Hd. split; reflexivity.
  - rewrite writeRandomData_tick.
    destruct (Hok rnd ws (or_introl eq_refl)) as (randStr & data & E1 & E2).
    rewrite E1, E2.
    rewrite copyContext_done by exact Hd. cbn [snd].
    destruct Hin as [Hin|Hin]; [discriminate Hin|].
    apply (IH (mkW (crw s) ws (emitted s))); auto.
    intros rnd' ws' I. apply (Hok rnd' ws'). right. exact I.
Qed.

Lemma writer_returns_after_cancellation_witness :
  ctx_Done (ctx (crw (start (new (Some Deadline))))) = true /\
  In SelDone two_ticks_cut /\
  fst (writeRandomData plain_Marshal 3 two_ticks_cut (start (new (Some Deadline))))
    = Returned None.
Proof.
  assert (Hd : ctx_Done (ctx (crw (start (new (Some Deadline))))) = true)
    by reflexivity.
  assert (Hin : In SelDone two_ticks_cut)
    by (right; right; left; reflexivity).
  split; [exact Hd|]. split; [exact Hin|].
  apply (writer_returns_after_cancellation plain_Marshal 3 two_ticks_cut
           (start (new (Some Deadline))) Hd Hin).
  intros rnd ws [I|[I|[I|[]]]]; try discriminate I;
    injection I as <- _; eexists; eexists; split; reflexivity.
Defined.





(** ** Payloads and bytes *)

(** X15.  In a run in which the stream takes every byte and only the
    deadline ends the scope, every payload handed to the byte loop goes out
    in full, except that the deadline may cut the last one short:
    [BytesWritten] lies between the length of all payloads but the last and
    the length of all payloads.  No more payloads are emitted than ticks
    are taken, and the one error left to the writer is a failure to
    serialize a payload. *)
Theorem only_last_payload_partial
  (json_Marshal : ReconnectingPTYRequest -> list Byte.byte + error)
  (size : Z) (tick : list sel_ev) :
  paced tick = true ->
  let run := writeRandomData json_Marshal size tick (start (new None)) in
  total_length (emitted (snd run)) < 2 ^ 63 ->
  total_length (emitted (snd run)) - last_length (emitted (snd run))
    <= BytesWritten (crw (snd run)) <= total_length (emitted (snd run)) /\
  Z.of_nat (List.length (emitted (snd run))) <= ticks tick /\
  marshal_error_only json_Marshal (fst run).
Proof.
  intros Hp run Hfit.
  destruct (writeRandomData_paced json_Marshal size tick Hp (start (new None)))
    as [[B1 B2] E].
  - unfold paced_inv, start, new. simpl. repeat split; try lia; congruence.
  - exact Hfit.
  - fold run in B1, B2, E. split; [split; assumption|]. split; [|exact E].
    pose proof (emitted_le_ticks json_Marshal size tick (start (new None))) as T.
    fold run in T. cbn [start emitted List.length] in T. lia.
Qed.

Lemma only_last_payload_partial_witness :
  paced two_ticks_cut = true /\
  total_length (emitted (snd (writeRandomData plain_Marshal 3 two_ticks_cut
                                (start (new None))))) = 28 /\
  28 - 14
    <= BytesWritten (crw (snd (writeRandomData plain_Marshal 3 two_ticks_cut
                                 (start (new None)))))
    <= 28.
Proof.
  assert (Hp : paced two_ticks_cut = true) by reflexivity.
  assert (Ht : total_length
                 (emitted (snd (writeRandomData plain_Marshal 3 two_ticks_cut
                                  (start (new None))))) = 28)
    by (vm_compute; reflexivity).
  assert (Hl : last_length
                 (emitted (snd (writeRandomData plain_Marshal 3 two_ticks_cut
                                  (start (new None))))) = 14)
    by (vm_compute; reflexivity).
  split; [exact Hp|]. split; [exact Ht|].
  destruct (only_last_payload_partial plain_Marshal 3 two_ticks_cut Hp)
    as (B & _).
  - rewrite Ht. reflexivity.
  - rewrite Ht, Hl in B. exact B.
Defined.
